(** * Channel listings of a shipping method

    A shallow embedding of
    [saleor/graphql/shipping/mutations/channels.py]: the mutation
    [ShippingMethodChannelListingUpdate], which assigns a shipping method
    to sales channels (with a price and order-value bounds) and unassigns
    it from others.

    The listing table is a list of rows: the order of the rows and
    repeated rows are kept, so that "at most one row per (shipping method,
    channel)" is a property to prove and not a by-product of the
    representation.  The code runs against a database session, modelled by
    a state and exception monad over [World]. *)

From stdpp Require Import base option list strings gmap.

Local Open Scope Z_scope.

(** ** Data model *)

(** A [Decimal] scalar: [unscaled * 10 ^ (- scale)]. *)
Record Decimal := { unscaled : Z; scale : nat }.

#[global] Instance Decimal_eq_dec : EqDecision Decimal.
Proof. solve_decision. Defined.

(** Modelled from the spec: the models of [saleor.shipping.models] and
    [saleor.channel.models], which are not among the sources, as far as
    the mutation reads and writes them: a shipping method and a channel
    with their keys, and the listing that joins them. *)
Module models.

Record ShippingMethod := { sm_pk : Z; sm_name : string }.

Record Channel := { ch_pk : Z; ch_slug : string }.

(** One row of the join table: price, min_value and max_value are
    nullable decimals. *)
Record ShippingMethodChannelListing := {
  shipping_method_id : Z;
  channel_id : Z;
  price : option Decimal;
  min_value : option Decimal;
  max_value : option Decimal
}.

End models.

#[global] Instance ShippingMethod_eq_dec : EqDecision models.ShippingMethod.
Proof. solve_decision. Defined.

#[global] Instance Channel_eq_dec : EqDecision models.Channel.
Proof. solve_decision. Defined.

#[global] Instance Listing_eq_dec :
  EqDecision models.ShippingMethodChannelListing.
Proof. solve_decision. Defined.

(** The key of the uniqueness constraint on the join table. *)
Definition listing_key (r : models.ShippingMethodChannelListing) : Z * Z :=
  (models.shipping_method_id r, models.channel_id r).

(** The row of a pair with its three values. *)
Definition listing (sm ch : Z) (p mn mx : option Decimal)
    : models.ShippingMethodChannelListing :=
  {| models.shipping_method_id := sm;
     models.channel_id := ch;
     models.price := p;
     models.min_value := mn;
     models.max_value := mx |}.

(** The database: shipping methods and channels are keyed by their global
    (GraphQL) identifier; the listing table is a list of rows. *)
Record Database := {
  shipping_methods : gmap string models.ShippingMethod;
  channels : gmap string models.Channel;
  listings : list models.ShippingMethodChannelListing
}.

Definition set_listings (d : Database)
    (rows : list models.ShippingMethodChannelListing) : Database :=
  {| shipping_methods := shipping_methods d;
     channels := channels d;
     listings := rows |}.

(** The session: the database and the fate of the write-path statements
    still to come ([true]: the storage layer rejects the statement, as for
    a constraint violation or a transient failure; an exhausted list: no
    further failure). *)
Record World := { db : Database; pending : list bool }.

(** ** Input types *)

(** [ShippingMethodChannelListingAddInput], as the dict the resolver
    receives.  For the optional fields, [None] is a key that is absent
    and [Some None] an explicit null.  The key ["channel"] is not part of
    the GraphQL type: [clean_channels] adds it. *)
Record ShippingMethodChannelListingAddInput := {
  channel_id : string;
  price : option (option Decimal);
  min_value : option (option Decimal);
  max_value : option (option Decimal);
  channel : option models.Channel
}.

(** [ShippingMethodChannelListingInput]: both lists are optional. *)
Record ShippingMethodChannelListingInput := {
  add_channels_input : option (list ShippingMethodChannelListingAddInput);
  remove_channels_input : option (list string)
}.

(** The dict [clean_channels] returns. *)
Record CleanedInput := {
  cleaned_add_channels : option (list ShippingMethodChannelListingAddInput);
  cleaned_remove_channels : option (list Z)
}.

(** [dict.get(key, d)] on an optional key. *)
Definition dict_get {A} (d : A) (entry : option A) : A := default d entry.

(** ** Errors *)

(** Modelled from the spec: [ShippingErrorCode], whose module is not
    among the sources, with the two codes the operation can end on. *)
Inductive ShippingErrorCode := DUPLICATED_INPUT_ITEM | NOT_FOUND.

#[global] Instance ShippingErrorCode_eq_dec : EqDecision ShippingErrorCode.
Proof. solve_decision. Defined.

(** One [django.core.exceptions.ValidationError] with its code and the
    identifiers it reports. *)
Record ErrorItem := { code : ShippingErrorCode; params : list string }.

#[global] Instance ErrorItem_eq_dec : EqDecision ErrorItem.
Proof. solve_decision. Defined.

(** [ErrorType = DefaultDict[str, List[ValidationError]]]. *)
Abbreviation ErrorType := (gmap string (list ErrorItem)).

Inductive Exception :=
| ValidationError (errors : ErrorType)
| KeyError (key : string)
| MultipleObjectsReturned
| DatabaseError.

#[global] Instance Exception_eq_dec : EqDecision Exception.
Proof. solve_decision. Defined.

(** ** The session monad *)

Inductive Result (A : Type) :=
| Ok (a : A)
| Raise (e : Exception).

Arguments Ok {A} a.
Arguments Raise {A} e.

Definition M (A : Type) : Type := World → World * Result A.

#[global] Instance M_ret : MRet M := λ A a w, (w, Ok a).

#[global] Instance M_bind : MBind M := λ A B k m w,
  match m w with
  | (w', Ok a) => k a w'
  | (w', Raise e) => (w', Raise e)
  end.

Definition raise {A} (e : Exception) : M A := λ w, (w, Raise e).

(** ** The ORM, as far as the mutation uses it *)

Module orm.

(** A read of the database by a collaborator that resolves identifiers;
    the storage failures of the model are those of the write path. *)
Definition query {A} (q : Database → A) : M A := λ w, (w, Ok (q (db w))).

(** One write-path statement: the storage layer rejects it, leaving the
    rows alone, or runs it. *)
Definition execute {A} (stmt : Database → Database * A) : M A :=
  λ w, match pending w with
       | true :: rest => ({| db := db w; pending := rest |}, Raise DatabaseError)
       | false :: rest =>
           let '(d, a) := stmt (db w) in ({| db := d; pending := rest |}, Ok a)
       | [] =>
           let '(d, a) := stmt (db w) in ({| db := d; pending := [] |}, Ok a)
       end.

(** [transaction.atomic]: when the block raises, the rows are what they
    were on entry and the exception goes on. *)
Definition atomic {A} (block : M A) : M A :=
  λ w, match block w with
       | (w', Ok a) => (w', Ok a)
       | (w', Raise e) => ({| db := db w; pending := pending w' |}, Raise e)
       end.

(** [objects.select_for_update().get(shipping_method=.., channel=..)]. *)
Definition get (sm ch : Z) : M (option models.ShippingMethodChannelListing) :=
  found ← execute (λ d, (d, filter (λ r, listing_key r = (sm, ch)) (listings d)));
  match found with
  | [] => mret None
  | [r] => mret (Some r)
  | _ :: _ :: _ => raise MultipleObjectsReturned
  end.

(** [objects.create(..)]: one INSERT. *)
Definition create (r : models.ShippingMethodChannelListing) : M unit :=
  execute (λ d, (set_listings d (listings d ++ [r]), tt)).

(** [obj.save()] of a fetched row after its three value fields were
    set: one UPDATE of that row.  The rows carry no primary key here: the
    fetched row is the only one of its pair, which identifies it. *)
Definition save_row (r : models.ShippingMethodChannelListing)
    (p mn mx : option Decimal) : M unit :=
  let r' := listing (models.shipping_method_id r) (models.channel_id r) p mn mx in
  execute (λ d,
    (set_listings d
       ((λ x, if decide (listing_key x = listing_key r) then r' else x)
          <$> listings d), tt)).

(** [objects.update_or_create(shipping_method=.., channel=..,
    defaults=..)]: inside its own atomic block, fetch the row of the
    pair; without one, insert a row with the defaults; with one, set the
    defaults on it and save it. *)
Definition update_or_create (sm ch : Z) (p mn mx : option Decimal) : M unit :=
  atomic (
    found ← get sm ch;
    match found with
    | None => create (listing sm ch p mn mx)
    | Some r => save_row r p mn mx
    end).

(** [objects.filter(shipping_method=.., channel_id__in=..).delete()]. *)
Definition filter_delete (sm : Z) (chs : list Z) : M unit :=
  execute (λ d,
    (set_listings d
       (filter (λ r, ¬ (models.shipping_method_id r = sm ∧
                        models.channel_id r ∈ chs)) (listings d)), tt)).

End orm.

(** ** The mutation *)

(** [add_channels]: one [update_or_create] per entry, in order. *)
Fixpoint add_channels (shipping_method : models.ShippingMethod)
    (to_add : list ShippingMethodChannelListingAddInput) : M unit :=
  match to_add with
  | [] => mret tt
  | add_channel :: rest =>
      let defaults_price := dict_get None (price add_channel) in
      let defaults_min_value := dict_get None (min_value add_channel) in
      let defaults_max_value := dict_get None (max_value add_channel) in
      ch ← match channel add_channel with
           | Some c => mret c
           | None => raise (KeyError "channel")
           end;
      orm.update_or_create (models.sm_pk shipping_method) (models.ch_pk ch)
        defaults_price defaults_min_value defaults_max_value;;
      add_channels shipping_method rest
  end.

(** [remove_channels]: one filtered delete. *)
Definition remove_channels (shipping_method : models.ShippingMethod)
    (to_remove : list Z) : M unit :=
  orm.filter_delete (models.sm_pk shipping_method) to_remove.

(** The body of [save], before the [transaction.atomic] decorator. *)
Definition save_block (shipping_method : models.ShippingMethod)
    (cleaned_input : CleanedInput) : M unit :=
  add_channels shipping_method
    (dict_get [] (cleaned_add_channels cleaned_input));;
  remove_channels shipping_method
    (dict_get [] (cleaned_remove_channels cleaned_input)).

(** [save], decorated with [transaction.atomic()]. *)
Definition save (shipping_method : models.ShippingMethod)
    (cleaned_input : CleanedInput) : M unit :=
  orm.atomic (save_block shipping_method cleaned_input).

(** *** Collaborators of the base classes *)

(** Modelled from the spec: [BaseMutation.get_node_or_error], the node
    resolution by global ID; its module is not among the sources.  An
    identifier that names no shipping method is a reference resolution
    error, reported on the field the caller names. *)
Definition get_node_or_error (id field : string) : M models.ShippingMethod :=
  found ← orm.query (λ d, shipping_methods d !! id);
  match found with
  | Some node => mret node
  | None =>
      raise (ValidationError {[ field := [ {| code := NOT_FOUND; params := [id] |} ] ]})
  end.

(** [errors[field].append(..)] on the [defaultdict(list)] of
    [perform_mutation]. *)
Definition errors_append (field : string) (item : ErrorItem)
    (errors : ErrorType) : ErrorType :=
  <[ field := default [] (errors !! field) ++ [item] ]> errors.

(** Modelled from the spec: the duplicate detection of the shared
    channel helper within one list: the values that occur again later in
    the list. *)
Fixpoint duplicated_values (ids : list string) : list string :=
  match ids with
  | [] => []
  | x :: rest =>
      if decide (x ∈ rest) then x :: duplicated_values rest
      else duplicated_values rest
  end.

(** Modelled from the spec: the duplicate detection of the shared
    channel helper across the two lists: the values of the first list that
    also occur in the second. *)
Definition duplicated_ids (add_ids remove_ids : list string) : list string :=
  filter (λ x, x ∈ remove_ids) add_ids.

(** Modelled from the spec: the report of the duplicates found, if any,
    on a field of the errors dict. *)
Definition report_duplicates (field : string) (found : list string)
    (error_code : ShippingErrorCode) (errors : ErrorType) : ErrorType :=
  match found with
  | [] => errors
  | _ :: _ => errors_append field {| code := error_code; params := found |} errors
  end.

(** Modelled from the spec: the resolution of a channel identifier to a
    channel record, by the shared channel helper; its module is not among
    the sources.  An unknown channel is a reference resolution error. *)
Definition get_channel_or_error (field id : string) : M models.Channel :=
  found ← orm.query (λ d, channels d !! id);
  match found with
  | Some node => mret node
  | None =>
      raise (ValidationError {[ field := [ {| code := NOT_FOUND; params := [id] |} ] ]})
  end.

(** Modelled from the spec: [channel_listing["channel"] = channel], the
    entry with its resolved channel. *)
Definition set_channel (add_channel : ShippingMethodChannelListingAddInput)
    (c : models.Channel) : ShippingMethodChannelListingAddInput :=
  {| channel_id := channel_id add_channel;
     price := price add_channel;
     min_value := min_value add_channel;
     max_value := max_value add_channel;
     channel := Some c |}.

(** Modelled from the spec: [BaseChannelListing.clean_channels], the
    shared validation helper; its module is not among the sources.  The
    channel identifiers of [add_channels] and [remove_channels] together
    must hold no duplicate: an identifier in both lists is reported on
    ["input"], an identifier repeated within a list on that list's field,
    each with the error code the caller passes.  The errors go into the
    caller's dict, which is returned with the cleaned input.  Without
    errors the identifiers are resolved: every entry to add gets its
    channel record under ["channel"], and the identifiers to remove become
    channel keys. *)
Definition clean_channels (input : ShippingMethodChannelListingInput)
    (errors : ErrorType) (error_code : ShippingErrorCode)
    : M (ErrorType * CleanedInput) :=
  let to_add := dict_get [] (add_channels_input input) in
  let add_channels_ids := channel_id <$> to_add in
  let remove_channels_ids := dict_get [] (remove_channels_input input) in
  let errors :=
    report_duplicates "input"
      (duplicated_ids add_channels_ids remove_channels_ids) error_code errors in
  let errors :=
    report_duplicates "add_channels"
      (duplicated_values add_channels_ids) error_code errors in
  let errors :=
    report_duplicates "remove_channels"
      (duplicated_values remove_channels_ids) error_code errors in
  if decide (errors ≠ ∅) then
    mret (errors,
          {| cleaned_add_channels := None; cleaned_remove_channels := None |})
  else
    channels_to_add ← mapM (get_channel_or_error "channel_id") add_channels_ids;
    channels_to_remove ←
      mapM (get_channel_or_error "remove_channels") remove_channels_ids;
    mret (errors,
          {| cleaned_add_channels := Some (zip_with set_channel to_add channels_to_add);
             cleaned_remove_channels := Some (models.ch_pk <$> channels_to_remove) |}).

(** *** The entry point *)

(** Modelled from the spec: [ChannelContext(node=.., channel_slug=..)],
    the channel-scoped view of an entity; its module is not among the
    sources. *)
Record ChannelContext := {
  node : models.ShippingMethod;
  channel_slug : option string
}.

(** The payload of the mutation. *)
Record ShippingMethodChannelListingUpdate := {
  shipping_method : ChannelContext
}.

(** [perform_mutation]; the request context [info] is the session the
    monad threads. *)
Definition perform_mutation (id : string)
    (input : ShippingMethodChannelListingInput)
    : M ShippingMethodChannelListingUpdate :=
  shipping_method ← get_node_or_error id "id";
  let errors : ErrorType := ∅ in
  '(errors, cleaned_input) ← clean_channels input errors DUPLICATED_INPUT_ITEM;
  if decide (errors ≠ ∅) then raise (ValidationError errors)
  else
    save shipping_method cleaned_input;;
    mret {| shipping_method :=
              {| node := shipping_method; channel_slug := None |} |}.

(** ** Specification vocabulary *)

(** The rows of a pair. *)
Definition rows_of (sm ch : Z) (rows : list models.ShippingMethodChannelListing)
    : list models.ShippingMethodChannelListing :=
  filter (λ r, listing_key r = (sm, ch)) rows.

(** What a successful [update_or_create] makes of the table. *)
Definition upsert (sm ch : Z) (p mn mx : option Decimal)
    (rows : list models.ShippingMethodChannelListing)
    : list models.ShippingMethodChannelListing :=
  match rows_of sm ch rows with
  | [] => rows ++ [listing sm ch p mn mx]
  | _ :: _ =>
      (λ x, if decide (listing_key x = (sm, ch))
            then listing sm ch p mn mx else x) <$> rows
  end.

(** What a successful filtered delete makes of the table. *)
Definition delete_rows (sm : Z) (chs : list Z)
    (rows : list models.ShippingMethodChannelListing)
    : list models.ShippingMethodChannelListing :=
  filter (λ r, ¬ (models.shipping_method_id r = sm ∧ models.channel_id r ∈ chs)) rows.

(** The uniqueness invariant of the join table. *)
Definition unique_listings (d : Database) : Prop :=
  NoDup (listing_key <$> listings d).

(** The rows of the other shipping methods. *)
Definition other_listings (sm : Z) (d : Database)
    : list models.ShippingMethodChannelListing :=
  filter (λ r, models.shipping_method_id r ≠ sm) (listings d).

(** The channel keys of the entries to add. *)
Definition add_pks (to_add : list ShippingMethodChannelListingAddInput) : list Z :=
  omap (λ e, models.ch_pk <$> channel e) to_add.

(** The row an entry asks for. *)
Definition listing_of (shipping_method : models.ShippingMethod)
    (c : models.Channel) (e : ShippingMethodChannelListingAddInput)
    : models.ShippingMethodChannelListing :=
  listing (models.sm_pk shipping_method) (models.ch_pk c)
    (dict_get None (price e)) (dict_get None (min_value e))
    (dict_get None (max_value e)).

(** What the specification says a field of an entry is stored as: the
    supplied value, and null for a field that is omitted or null. *)
Definition stored_value (field : option (option Decimal)) : option Decimal :=
  match field with
  | Some (Some d) => Some d
  | Some None => None
  | None => None
  end.

(** The channel identifiers an input names, those to add before those to
    remove. *)
Definition input_ids (input : ShippingMethodChannelListingInput) : list string :=
  (channel_id <$> dict_get [] (add_channels_input input)) ++
  dict_get [] (remove_channels_input input).

(** The errors dict [clean_channels] leaves for an input, starting from
    an empty one. *)
Definition validation_errors (input : ShippingMethodChannelListingInput)
    (error_code : ShippingErrorCode) : ErrorType :=
  let add_channels_ids := channel_id <$> dict_get [] (add_channels_input input) in
  let remove_channels_ids := dict_get [] (remove_channels_input input) in
  report_duplicates "remove_channels" (duplicated_values remove_channels_ids) error_code
    (report_duplicates "add_channels" (duplicated_values add_channels_ids) error_code
       (report_duplicates "input"
          (duplicated_ids add_channels_ids remove_channels_ids) error_code ∅)).

(** An outcome that is a validation error with an item of the code
    [DUPLICATED_INPUT_ITEM], in the world [w]. *)
Definition fails_duplicated {A} (out : World * Result A) (w : World) : Prop :=
  ∃ errors field items item,
    out = (w, Raise (ValidationError errors)) ∧
    errors !! field = Some items ∧ item ∈ items ∧
    code item = DUPLICATED_INPUT_ITEM.

(** The other order of the two steps of [save]: the remove step first,
    the add step second, in one atomic block. *)
Definition save_remove_first (shipping_method : models.ShippingMethod)
    (cleaned_input : CleanedInput) : M unit :=
  orm.atomic (
    remove_channels shipping_method
      (dict_get [] (cleaned_remove_channels cleaned_input));;
    add_channels shipping_method
      (dict_get [] (cleaned_add_channels cleaned_input))).

(** The session after an accepted filtered delete, when no statement is
    rejected. *)
Definition after_delete (sm : models.ShippingMethod) (chs : list Z)
    (w : World) : World :=
  {| db := set_listings (db w)
             (delete_rows (models.sm_pk sm) chs (listings (db w)));
     pending := [] |}.

(** ** Sample data *)

Definition standard : models.ShippingMethod :=
  {| models.sm_pk := 1; models.sm_name := "Standard Delivery" |}.

Definition express : models.ShippingMethod :=
  {| models.sm_pk := 2; models.sm_name := "Express" |}.

Definition channel_usd : models.Channel :=
  {| models.ch_pk := 1; models.ch_slug := "default-channel" |}.

Definition channel_pln : models.Channel :=
  {| models.ch_pk := 2; models.ch_slug := "channel-pln" |}.

(** 10.00 and 5.50. *)
Definition ten : Decimal := {| unscaled := 1000; scale := 2 |}.

Definition five_fifty : Decimal := {| unscaled := 550; scale := 2 |}.

(** The shipping method [standard] is listed in [channel_pln] only;
    [express] has a row of its own there. *)
Definition sample_db : Database :=
  {| shipping_methods :=
       {[ "U2hpcHBpbmdNZXRob2Q6MQ==" := standard;
          "U2hpcHBpbmdNZXRob2Q6Mg==" := express ]};
     channels :=
       {[ "Q2hhbm5lbDox" := channel_usd; "Q2hhbm5lbDoy" := channel_pln ]};
     listings :=
       [ listing 1 2 (Some five_fifty) (Some five_fifty) (Some ten);
         listing 2 2 (Some ten) None None ] |}.

Definition sample_world : World := {| db := sample_db; pending := [] |}.

(** An entry for [channel_usd]: a price, no min_value key, a null
    max_value. *)
Definition add_usd (c : option models.Channel)
    : ShippingMethodChannelListingAddInput :=
  {| channel_id := "Q2hhbm5lbDox";
     price := Some (Some ten);
     min_value := None;
     max_value := Some None;
     channel := c |}.

(** An entry for [channel_pln], with the same fields. *)
Definition add_pln (c : option models.Channel)
    : ShippingMethodChannelListingAddInput :=
  {| channel_id := "Q2hhbm5lbDoy";
     price := Some (Some ten);
     min_value := None;
     max_value := Some None;
     channel := c |}.

(** Add [channel_usd], remove [channel_pln]. *)
Definition sample_input : ShippingMethodChannelListingInput :=
  {| add_channels_input := Some [add_usd None];
     remove_channels_input := Some ["Q2hhbm5lbDoy"] |}.

Definition sample_cleaned_input : CleanedInput :=
  {| cleaned_add_channels := Some [add_usd (Some channel_usd)];
     cleaned_remove_channels := Some [2] |}.

(** [channel_usd] both added and removed. *)
Definition duplicate_input : ShippingMethodChannelListingInput :=
  {| add_channels_input := Some [add_usd None];
     remove_channels_input := Some ["Q2hhbm5lbDox"] |}.

(** A session whose third write-path statement is rejected. *)
Definition rejecting_world : World :=
  {| db := sample_db; pending := [false; false; true] |}.

(** The storage layer accepts the next [n] write-path statements. *)
Fixpoint accepted (n : nat) (p : list bool) : Prop :=
  match n with
  | O => True
  | S n' => head p ≠ Some true ∧ accepted n' (tail p)
  end.

(** * Properties *)

(** ** The ORM operations *)

Lemma bind_run {A B} (m : M A) (k : A → M B) (w : World) :
  (m ≫= k) w =
  match m w with
  | (w', Ok a) => k a w'
  | (w', Raise e) => (w', Raise e)
  end.
Proof. reflexivity. Qed.

Lemma execute_cases {A} (stmt : Database → Database * A) (w : World) :
  (head (pending w) = Some true ∧
   orm.execute stmt w =
     ({| db := db w; pending := tail (pending w) |}, Raise DatabaseError)) ∨
  (head (pending w) ≠ Some true ∧
   orm.execute stmt w =
     ({| db := (stmt (db w)).1; pending := tail (pending w) |},
      Ok (stmt (db w)).2)).
Proof.
  unfold orm.execute. destruct (pending w) as [|[] rest]; simpl.
  - right. split; [done|]. by destruct (stmt (db w)).
  - left. done.
  - right. split; [done|]. by destruct (stmt (db w)).
Qed.

Lemma listing_key_rows_of sm ch rows r :
  r ∈ rows_of sm ch rows → listing r.(models.shipping_method_id)
    r.(models.channel_id) r.(models.price) r.(models.min_value)
    r.(models.max_value) = r ∧ listing_key r = (sm, ch).
Proof.
  unfold rows_of. rewrite list_elem_of_filter. intros [Hk _].
  split; [by destruct r | done].
Qed.

(** The run of [update_or_create], statement by statement: the fetch,
    then the insert or the update. *)
Lemma update_or_create_run sm ch p mn mx (w : World) :
  orm.update_or_create sm ch p mn mx w =
    if decide (head (pending w) = Some true) then
      ({| db := db w; pending := tail (pending w) |}, Raise DatabaseError)
    else if decide (length (rows_of sm ch (listings (db w))) ≤ 1)%nat then
      if decide (head (tail (pending w)) = Some true) then
        ({| db := db w; pending := tail (tail (pending w)) |},
         Raise DatabaseError)
      else
        ({| db := set_listings (db w) (upsert sm ch p mn mx (listings (db w)));
            pending := tail (tail (pending w)) |}, Ok tt)
    else
      ({| db := db w; pending := tail (pending w) |},
       Raise MultipleObjectsReturned).
Proof.
  unfold orm.update_or_create, orm.atomic, orm.get.
  rewrite !bind_run.
  destruct (execute_cases
    (λ d, (d, filter (λ r, listing_key r = (sm, ch)) (listings d))) w)
    as [[Hrej ->]|[Hacc ->]]; cbn [fst snd].
  { by rewrite decide_True. }
  rewrite decide_False by done.
  fold (rows_of sm ch (listings (db w))). unfold upsert.
  destruct (rows_of sm ch (listings (db w))) as [|r [|r2 found]] eqn:Hfound;
    cbn [mret M_ret raise length].
  - rewrite decide_True by lia. unfold orm.create.
    match goal with |- context [orm.execute ?f ?w0] =>
      destruct (execute_cases f w0) as [[Hrej ->]|[Hacc2 ->]] end;
      cbn [fst snd db pending] in *.
    + by rewrite decide_True.
    + by rewrite decide_False.
  - rewrite decide_True by lia. unfold orm.save_row.
    match goal with |- context [orm.execute ?f ?w0] =>
      destruct (execute_cases f w0) as [[Hrej ->]|[Hacc2 ->]] end;
      cbn [fst snd db pending] in *.
    + by rewrite decide_True.
    + rewrite decide_False by done.
      assert (Hr : r ∈ rows_of sm ch (listings (db w))) by (rewrite Hfound; left).
      apply listing_key_rows_of in Hr as [_ Hk].
      rewrite Hk. injection Hk as -> ->. done.
  - rewrite decide_False by lia. done.
Qed.

Lemma update_or_create_cases sm ch p mn mx (w : World) :
  ∃ w' res, orm.update_or_create sm ch p mn mx w = (w', res) ∧
    ((∃ e, res = Raise e ∧ db w' = db w) ∨
     (res = Ok tt ∧ length (rows_of sm ch (listings (db w))) ≤ 1 ∧
      db w' = set_listings (db w) (upsert sm ch p mn mx (listings (db w))))%nat).
Proof.
  rewrite update_or_create_run.
  repeat case_decide; eexists _, _; (split; [done|]); eauto.
Qed.

Lemma update_or_create_quiet sm ch p mn mx (w : World) :
  pending w = [] →
  orm.update_or_create sm ch p mn mx w =
    if decide (length (rows_of sm ch (listings (db w))) ≤ 1)%nat
    then ({| db := set_listings (db w) (upsert sm ch p mn mx (listings (db w)));
             pending := [] |}, Ok tt)
    else ({| db := db w; pending := [] |}, Raise MultipleObjectsReturned).
Proof.
  intros Hq. rewrite update_or_create_run, Hq. cbn [head tail].
  rewrite !decide_False by done. done.
Qed.

(** A successful [update_or_create]: the pair had at most one row, the
    two statements were accepted, and the table holds the upsert. *)
Lemma update_or_create_ok sm ch p mn mx (w w' : World) :
  orm.update_or_create sm ch p mn mx w = (w', Ok tt) ↔
  (length (rows_of sm ch (listings (db w))) ≤ 1)%nat ∧
  head (pending w) ≠ Some true ∧
  head (tail (pending w)) ≠ Some true ∧
  w' = {| db := set_listings (db w) (upsert sm ch p mn mx (listings (db w)));
          pending := tail (tail (pending w)) |}.
Proof.
  rewrite update_or_create_run.
  repeat case_decide; split; try done; try (intros [= <-]; done);
    try (intros (? & ? & ? & _); done).
  intros (_ & _ & _ & ->). done.
Qed.

Lemma rows_of_app sm ch rows1 rows2 :
  rows_of sm ch (rows1 ++ rows2) = rows_of sm ch rows1 ++ rows_of sm ch rows2.
Proof. apply filter_app. Qed.

Lemma rows_of_replace_same sm ch r' rows :
  listing_key r' = (sm, ch) →
  rows_of sm ch
    ((λ x, if decide (listing_key x = (sm, ch)) then r' else x) <$> rows) =
  (λ _, r') <$> rows_of sm ch rows.
Proof.
  intros Hk. unfold rows_of.
  induction rows as [|x rows IH]; [done|].
  rewrite fmap_cons, !filter_cons, IH.
  repeat case_decide; try done; congruence.
Qed.

Lemma rows_of_replace_other sm ch sm' ch' r' rows :
  (sm, ch) ≠ (sm', ch') →
  listing_key r' = (sm', ch') →
  rows_of sm ch
    ((λ x, if decide (listing_key x = (sm', ch')) then r' else x) <$> rows) =
  rows_of sm ch rows.
Proof.
  intros Hne Hk. unfold rows_of.
  induction rows as [|x rows IH]; [done|].
  rewrite fmap_cons, !filter_cons, IH.
  repeat case_decide; try done; congruence.
Qed.

Lemma upsert_rows_of_same sm ch p mn mx rows :
  (length (rows_of sm ch rows) ≤ 1)%nat →
  rows_of sm ch (upsert sm ch p mn mx rows) = [listing sm ch p mn mx].
Proof.
  intros Hlen. unfold upsert.
  destruct (rows_of sm ch rows) as [|r [|r2 found]] eqn:Hfound.
  - rewrite rows_of_app, Hfound. unfold rows_of.
    rewrite filter_cons, decide_True by done. done.
  - rewrite rows_of_replace_same by done. by rewrite Hfound.
  - simpl in Hlen. lia.
Qed.

Lemma upsert_rows_of_other sm ch p mn mx sm' ch' rows :
  (sm', ch') ≠ (sm, ch) →
  rows_of sm' ch' (upsert sm ch p mn mx rows) = rows_of sm' ch' rows.
Proof.
  intros Hne. unfold upsert.
  destruct (rows_of sm ch rows) as [|r found] eqn:Hfound.
  - rewrite rows_of_app. unfold rows_of at 2.
    rewrite filter_cons, decide_False by (intros Hk; apply Hne; by rewrite <- Hk).
    by rewrite filter_nil, app_nil_r.
  - by rewrite rows_of_replace_other.
Qed.

Lemma rows_of_nil_key sm ch rows :
  rows_of sm ch rows = [] ↔ (sm, ch) ∉ listing_key <$> rows.
Proof.
  unfold rows_of. induction rows as [|x rows IH]; simpl.
  - split; [intros _; apply not_elem_of_nil | done].
  - rewrite filter_cons, not_elem_of_cons, <- IH.
    destruct (decide (listing_key x = (sm, ch))) as [Hk|Hk].
    + split; [done|]. intros [Hne _]. by destruct Hne.
    + split; [|tauto]. intros Hnil. split; [congruence|done].
Qed.

Lemma upsert_keys sm ch p mn mx rows :
  listing_key <$> upsert sm ch p mn mx rows =
  match rows_of sm ch rows with
  | [] => (listing_key <$> rows) ++ [(sm, ch)]
  | _ :: _ => listing_key <$> rows
  end.
Proof.
  unfold upsert. destruct (rows_of sm ch rows) as [|r found].
  - by rewrite fmap_app.
  - rewrite <- list_fmap_compose. apply list_fmap_ext.
    intros i x _. simpl. by case_decide.
Qed.

Lemma upsert_unique sm ch p mn mx rows :
  NoDup (listing_key <$> rows) →
  NoDup (listing_key <$> upsert sm ch p mn mx rows).
Proof.
  intros Hnd. rewrite upsert_keys.
  destruct (rows_of sm ch rows) as [|r found] eqn:Hfound; [|done].
  apply NoDup_app. split_and!; [done| |apply NoDup_singleton].
  intros k Hk ->%list_elem_of_singleton.
  by apply rows_of_nil_key in Hfound.
Qed.

Lemma upsert_length sm ch p mn mx rows :
  length (upsert sm ch p mn mx rows) =
  match rows_of sm ch rows with
  | [] => S (length rows)
  | _ :: _ => length rows
  end.
Proof.
  unfold upsert. destruct (rows_of sm ch rows).
  - rewrite length_app. simpl. lia.
  - by rewrite length_fmap.
Qed.

Lemma filter_ext_in {A} (P Q : A → Prop)
    `{!∀ x, Decision (P x), !∀ x, Decision (Q x)} (l : list A) :
  (∀ x, x ∈ l → P x ↔ Q x) → filter P l = filter Q l.
Proof.
  induction l as [|a l IH]; intros Hext; [done|].
  rewrite !filter_cons, IH by (intros x Hx; apply Hext; by right).
  destruct (decide (P a)) as [HP|HP].
  - rewrite decide_True; [done|]. apply Hext; [left|done].
  - rewrite decide_False; [done|]. intros HQ. apply HP, Hext; [left|done].
Qed.

Lemma upsert_lookup sm ch p mn mx rows (i : nat) r :
  rows !! i = Some r →
  upsert sm ch p mn mx rows !! i =
    Some (if decide (listing_key r = (sm, ch)) then listing sm ch p mn mx else r).
Proof.
  intros Hi. unfold upsert. destruct (rows_of sm ch rows) as [|r0 found] eqn:Hfound.
  - rewrite lookup_app_l by (by eapply lookup_lt_Some).
    rewrite Hi. f_equal. rewrite decide_False; [done|].
    intros Hk. apply rows_of_nil_key in Hfound. apply Hfound.
    rewrite <- Hk. apply list_elem_of_fmap_2. by eapply list_elem_of_lookup_2.
  - by rewrite list_lookup_fmap, Hi.
Qed.

Lemma upsert_other_shipping_methods sm ch p mn mx rows :
  filter (λ r, models.shipping_method_id r ≠ sm) (upsert sm ch p mn mx rows) =
  filter (λ r, models.shipping_method_id r ≠ sm) rows.
Proof.
  unfold upsert. destruct (rows_of sm ch rows) as [|r0 found].
  - rewrite filter_app, filter_cons, decide_False by (simpl; tauto).
    by rewrite filter_nil, app_nil_r.
  - induction rows as [|x rows IH]; [done|].
    rewrite fmap_cons, !filter_cons, IH.
    destruct (decide (listing_key x = (sm, ch))) as [Hk|Hk]; [|done].
    injection Hk as Hsm _.
    rewrite !decide_False by (simpl; tauto). done.
Qed.

Lemma delete_rows_unique sm chs rows :
  NoDup (listing_key <$> rows) →
  NoDup (listing_key <$> delete_rows sm chs rows).
Proof.
  unfold delete_rows. induction rows as [|x rows IH]; [done|].
  rewrite fmap_cons, NoDup_cons. intros [Hx Hnd].
  rewrite filter_cons. case_decide; [|by apply IH].
  rewrite fmap_cons, NoDup_cons. split; [|by apply IH].
  intros Hin. apply Hx.
  apply list_elem_of_fmap in Hin as (y & -> & Hy%list_elem_of_filter).
  apply list_elem_of_fmap_2. tauto.
Qed.

Lemma delete_rows_other_shipping_methods sm chs rows :
  filter (λ r, models.shipping_method_id r ≠ sm) (delete_rows sm chs rows) =
  filter (λ r, models.shipping_method_id r ≠ sm) rows.
Proof.
  unfold delete_rows. rewrite list_filter_filter.
  apply list_filter_iff. intros r. tauto.
Qed.

Lemma unique_rows_of sm ch rows :
  NoDup (listing_key <$> rows) → (length (rows_of sm ch rows) ≤ 1)%nat.
Proof.
  induction rows as [|x rows IH]; [simpl; lia|].
  rewrite fmap_cons, NoDup_cons. intros [Hx Hnd].
  unfold rows_of. rewrite filter_cons.
  destruct (decide (listing_key x = (sm, ch))) as [Hk|Hk]; [|by apply IH].
  rewrite Hk in Hx. apply rows_of_nil_key in Hx.
  unfold rows_of in Hx. rewrite Hx. simpl. lia.
Qed.

(** ** The add step *)

Lemma add_channels_cons sm e rest (w : World) :
  add_channels sm (e :: rest) w =
  match channel e with
  | None => (w, Raise (KeyError "channel"))
  | Some c =>
      match orm.update_or_create (models.sm_pk sm) (models.ch_pk c)
              (dict_get None (price e)) (dict_get None (min_value e))
              (dict_get None (max_value e)) w with
      | (w1, Ok _) => add_channels sm rest w1
      | (w1, Raise ex) => (w1, Raise ex)
      end
  end.
Proof.
  cbn [add_channels]. rewrite bind_run.
  destruct (channel e) as [c|]; [|done].
  cbn [mret M_ret]. rewrite bind_run. done.
Qed.

Lemma add_pks_cons e rest :
  add_pks (e :: rest) =
  match channel e with
  | Some c => models.ch_pk c :: add_pks rest
  | None => add_pks rest
  end.
Proof. unfold add_pks. simpl. by destruct (channel e). Qed.

(** A property of the database that every upsert of a channel of the
    list keeps is kept by the add step, however it ends. *)
Lemma add_channels_preserves (I : Database → Prop) sm to_add :
  (∀ d ch p mn mx,
     ch ∈ add_pks to_add → I d →
     I (set_listings d (upsert (models.sm_pk sm) ch p mn mx (listings d)))) →
  ∀ (w w' : World) res,
    add_channels sm to_add w = (w', res) → I (db w) → I (db w').
Proof.
  induction to_add as [|e rest IH]; intros Hstep w w' res Hrun HI.
  - by injection Hrun as <- _.
  - rewrite add_channels_cons in Hrun. rewrite add_pks_cons in Hstep.
    destruct (channel e) as [c|]; [|by injection Hrun as <- _].
    destruct (update_or_create_cases (models.sm_pk sm) (models.ch_pk c)
      (dict_get None (price e)) (dict_get None (min_value e))
      (dict_get None (max_value e)) w)
      as (w1 & r1 & Heq & [(ex & -> & Hdb)|(-> & _ & Hdb)]);
      rewrite Heq in Hrun.
    + injection Hrun as <- _. by rewrite Hdb.
    + eapply IH; [|done|].
      * intros d ch p mn mx Hch. apply Hstep. by right.
      * rewrite Hdb. apply Hstep; [left|done].
Qed.

Lemma add_channels_ok_inv sm e rest (w w' : World) :
  add_channels sm (e :: rest) w = (w', Ok tt) →
  ∃ c w1,
    channel e = Some c ∧
    (length (rows_of (models.sm_pk sm) (models.ch_pk c) (listings (db w))) ≤ 1)%nat ∧
    db w1 = set_listings (db w)
      (upsert (models.sm_pk sm) (models.ch_pk c) (dict_get None (price e))
         (dict_get None (min_value e)) (dict_get None (max_value e))
         (listings (db w))) ∧
    add_channels sm rest w1 = (w', Ok tt).
Proof.
  rewrite add_channels_cons. intros Hrun.
  destruct (channel e) as [c|]; [|done].
  destruct (update_or_create_cases (models.sm_pk sm) (models.ch_pk c)
    (dict_get None (price e)) (dict_get None (min_value e))
    (dict_get None (max_value e)) w)
    as (w1 & r1 & Heq & [(ex & -> & Hdb)|(-> & Hlen & Hdb)]);
    rewrite Heq in Hrun; [done|].
  by exists c, w1.
Qed.

(** The rows of a pair that the add step is not asked to write. *)
Lemma add_channels_rows_of_other sm to_add (w w' : World) res sm' ch' :
  add_channels sm to_add w = (w', res) →
  sm' ≠ models.sm_pk sm ∨ ch' ∉ add_pks to_add →
  rows_of sm' ch' (listings (db w')) = rows_of sm' ch' (listings (db w)).
Proof.
  intros Hrun Hother.
  apply (add_channels_preserves
    (λ d, rows_of sm' ch' (listings d) = rows_of sm' ch' (listings (db w)))
    sm to_add) with (w := w) (res := res); [|done|done].
  intros d ch p mn mx Hch <-. simpl.
  apply upsert_rows_of_other. intros [= -> ->]. tauto.
Qed.

(** The row of an entry after a successful add step. *)
Lemma add_channels_rows_of_added sm to_add :
  ∀ (w w' : World) e c,
    add_channels sm to_add w = (w', Ok tt) →
    NoDup (add_pks to_add) →
    e ∈ to_add → channel e = Some c →
    rows_of (models.sm_pk sm) (models.ch_pk c) (listings (db w')) =
      [listing_of sm c e].
Proof.
  induction to_add as [|e0 rest IH]; intros w w' e c Hrun Hnd Hin Hc.
  - by apply elem_of_nil in Hin.
  - apply add_channels_ok_inv in Hrun as (c0 & w1 & Hc0 & Hlen & Hdb & Hrest).
    rewrite add_pks_cons, Hc0 in Hnd. apply NoDup_cons in Hnd as [Hfresh Hnd].
    destruct (decide (models.ch_pk c ∈ add_pks rest)) as [Hmem|Hmem].
    + apply elem_of_cons in Hin as [->|Hin]; [|by eapply IH].
      rewrite Hc0 in Hc. by injection Hc as ->.
    + rewrite (add_channels_rows_of_other _ _ _ _ _ _ _ Hrest) by (by right).
      apply elem_of_cons in Hin as [->|Hin].
      * rewrite Hc0 in Hc. injection Hc as ->.
        rewrite Hdb. simpl. by apply upsert_rows_of_same.
      * destruct Hmem. unfold add_pks. apply list_elem_of_omap.
        exists e. by rewrite Hc.
Qed.

(** The add step leaves every row where it is and with its key. *)
Lemma add_channels_lookup sm to_add (w w' : World) res (i : nat) r :
  add_channels sm to_add w = (w', res) →
  listings (db w) !! i = Some r →
  ∃ r', listings (db w') !! i = Some r' ∧ listing_key r' = listing_key r.
Proof.
  intros Hrun Hi.
  apply (add_channels_preserves
    (λ d, ∃ r', listings d !! i = Some r' ∧ listing_key r' = listing_key r)
    sm to_add) with (w := w) (res := res); [|done|by exists r].
  intros d ch p mn mx _ (r' & Hr' & Hk). simpl.
  erewrite upsert_lookup by done. eexists. split; [done|].
  destruct (decide _) as [Hd|Hd]; [|done]. by rewrite <- Hk, Hd.
Qed.

Lemma add_channels_unique sm to_add (w w' : World) res :
  add_channels sm to_add w = (w', res) →
  unique_listings (db w) → unique_listings (db w').
Proof.
  intros Hrun. apply (add_channels_preserves unique_listings sm to_add)
    with (res := res); [|done].
  intros d ch p mn mx _. apply upsert_unique.
Qed.

Lemma dict_get_stored_value field : dict_get None field = stored_value field.
Proof. by destruct field as [[d|]|]. Qed.

(** Without a rejected statement, on a table that satisfies the
    uniqueness invariant, the add step runs to its end for entries that
    carry their channel. *)
Lemma add_channels_succeeds sm to_add :
  ∀ w : World,
    pending w = [] → unique_listings (db w) →
    Forall (λ e, is_Some (channel e)) to_add →
    ∃ w', add_channels sm to_add w = (w', Ok tt) ∧ pending w' = [].
Proof.
  induction to_add as [|e rest IH]; intros w Hq Hu Hall.
  - by exists w.
  - apply Forall_cons in Hall as [[c Hc] Hall].
    rewrite add_channels_cons, Hc, update_or_create_quiet by done.
    rewrite decide_True by (by apply unique_rows_of).
    apply IH; [done| |done]. by apply upsert_unique.
Qed.

(** C3: an entry of the add step whose pair already has a listing row:
    after the add step the pair has exactly one row, at the place of the
    old one, and its price, min_value and max_value are the supplied ones,
    null for a field that is omitted or null.  The entries are those of a
    validated input (no channel twice) and the add step ran to its end,
    which [add_channels_succeeds] shows it does. *)
Theorem add_channels_overwrites_existing sm to_add (w w' : World) e c :
  add_channels sm to_add w = (w', Ok tt) →
  NoDup (add_pks to_add) →
  e ∈ to_add → channel e = Some c →
  rows_of (models.sm_pk sm) (models.ch_pk c) (listings (db w)) ≠ [] →
  let row := listing (models.sm_pk sm) (models.ch_pk c)
               (stored_value (price e)) (stored_value (min_value e))
               (stored_value (max_value e)) in
  rows_of (models.sm_pk sm) (models.ch_pk c) (listings (db w')) = [row] ∧
  ∃ (i : nat) old,
    listings (db w) !! i = Some old ∧
    listing_key old = (models.sm_pk sm, models.ch_pk c) ∧
    listings (db w') !! i = Some row.
Proof.
  intros Hrun Hnd Hin Hc Hsome row.
  assert (Hrows : rows_of (models.sm_pk sm) (models.ch_pk c) (listings (db w'))
                  = [row]).
  { rewrite (add_channels_rows_of_added sm to_add w w' e c) by done.
    unfold listing_of, row. by rewrite !dict_get_stored_value. }
  split; [done|].
  destruct (rows_of (models.sm_pk sm) (models.ch_pk c) (listings (db w)))
    as [|old found] eqn:Hfound; [done|].
  assert (Hold : old ∈ rows_of (models.sm_pk sm) (models.ch_pk c)
                      (listings (db w))) by (rewrite Hfound; left).
  apply list_elem_of_filter in Hold as [Hk [i Hi]%list_elem_of_lookup_1].
  exists i, old. split_and!; [done..|].
  destruct (add_channels_lookup sm to_add w w' (Ok tt) i old Hrun Hi)
    as (r' & Hr' & Hk').
  assert (Hmem : r' ∈ rows_of (models.sm_pk sm) (models.ch_pk c)
                      (listings (db w'))).
  { apply list_elem_of_filter. split; [congruence|].
    by eapply list_elem_of_lookup_2. }
  rewrite Hrows in Hmem. apply list_elem_of_singleton in Hmem. by subst r'.
Qed.

(** The add step of a validated input adds one row for each entry whose
    pair had none, and no other. *)
Lemma add_channels_length sm to_add :
  ∀ w w' : World,
    add_channels sm to_add w = (w', Ok tt) →
    NoDup (add_pks to_add) →
    length (listings (db w')) =
      (length (listings (db w)) +
       length (filter (λ ch, rows_of (models.sm_pk sm) ch (listings (db w)) = [])
                 (add_pks to_add)))%nat.
Proof.
  induction to_add as [|e rest IH]; intros w w' Hrun Hnd.
  - injection Hrun as <-. simpl. lia.
  - apply add_channels_ok_inv in Hrun as (c & w1 & Hc & _ & Hdb & Hrest).
    rewrite add_pks_cons, Hc in Hnd |- *.
    apply NoDup_cons in Hnd as [Hfresh Hnd].
    rewrite (IH w1 w' Hrest Hnd), Hdb. cbn [listings set_listings].
    rewrite upsert_length, filter_cons.
    rewrite (filter_ext_in
      (λ ch, rows_of (models.sm_pk sm) ch (upsert _ _ _ _ _ (listings (db w))) = [])
      (λ ch, rows_of (models.sm_pk sm) ch (listings (db w)) = [])).
    + destruct (rows_of (models.sm_pk sm) (models.ch_pk c) (listings (db w)));
        [rewrite decide_True by done|rewrite decide_False by done]; simpl; lia.
    + intros ch Hch. rewrite upsert_rows_of_other; [done|].
      intros [= ->]. done.
Qed.

(** C4: an entry of the add step whose pair has no listing row: after the
    add step the pair has exactly one row, which was not in the table
    before and carries the supplied price, min_value and max_value; the
    table has grown by one row for each entry whose pair had none, and by
    no other row.  The entries are those of a validated input (no channel
    twice) and the add step ran to its end. *)
Theorem add_channels_creates_missing sm to_add (w w' : World) e c :
  add_channels sm to_add w = (w', Ok tt) →
  NoDup (add_pks to_add) →
  e ∈ to_add → channel e = Some c →
  rows_of (models.sm_pk sm) (models.ch_pk c) (listings (db w)) = [] →
  let row := listing (models.sm_pk sm) (models.ch_pk c)
               (stored_value (price e)) (stored_value (min_value e))
               (stored_value (max_value e)) in
  rows_of (models.sm_pk sm) (models.ch_pk c) (listings (db w')) = [row] ∧
  (row ∉ listings (db w)) ∧
  length (listings (db w')) =
    (length (listings (db w)) +
     length (filter (λ ch, rows_of (models.sm_pk sm) ch (listings (db w)) = [])
               (add_pks to_add)))%nat.
Proof.
  intros Hrun Hnd Hin Hc Hnone row. split_and!; [| |by apply add_channels_length].
  - rewrite (add_channels_rows_of_added sm to_add w w' e c) by done.
    unfold listing_of, row. by rewrite !dict_get_stored_value.
  - intros Hmem. apply rows_of_nil_key in Hnone. apply Hnone.
    by apply (list_elem_of_fmap_2 listing_key) in Hmem.
Qed.

(** ** The remove step *)

Lemma remove_channels_cases sm to_remove (w : World) :
  (head (pending w) = Some true ∧
   remove_channels sm to_remove w =
     ({| db := db w; pending := tail (pending w) |}, Raise DatabaseError)) ∨
  (head (pending w) ≠ Some true ∧
   remove_channels sm to_remove w =
     ({| db := set_listings (db w)
                 (delete_rows (models.sm_pk sm) to_remove (listings (db w)));
         pending := tail (pending w) |}, Ok tt)).
Proof. apply execute_cases. Qed.

Lemma delete_rows_rows_of sm chs ch rows :
  ch ∈ chs → rows_of sm ch (delete_rows sm chs rows) = [].
Proof.
  intros Hch. unfold rows_of, delete_rows. rewrite list_filter_filter.
  induction rows as [|x rows IH]; [done|].
  rewrite filter_cons, IH. rewrite decide_False; [done|].
  intros [[= Hsm Hc] Hkeep]. apply Hkeep. by rewrite Hsm, Hc.
Qed.

Lemma delete_rows_absent sm chs ch rows :
  rows_of sm ch rows = [] →
  delete_rows sm (filter (λ x, x ≠ ch) chs) rows = delete_rows sm chs rows.
Proof.
  intros Hnone. unfold delete_rows. apply filter_ext_in.
  intros x Hx. rewrite list_elem_of_filter.
  assert (Hk : listing_key x ≠ (sm, ch)).
  { intros Hk. apply rows_of_nil_key in Hnone. apply Hnone.
    rewrite <- Hk. by apply list_elem_of_fmap_2. }
  split.
  - intros Hkeep [Hsm Hmem]. apply Hkeep. split_and!; [done| |done].
    intros Hc. apply Hk. unfold listing_key. by rewrite Hsm, Hc.
  - intros Hkeep [Hsm [_ Hmem]]. by apply Hkeep.
Qed.

(** C5: when the storage layer does not reject the delete statement, the
    remove step ends without an error, whatever the removal set; the rows
    left are exactly those that are not rows of the shipping method with a
    channel of the set, in their order, and nothing else changes; a
    channel of the set without a listing row makes no difference to the
    outcome. *)
Theorem remove_channels_deletes_exactly sm to_remove (w : World) :
  head (pending w) ≠ Some true →
  ∃ w',
    remove_channels sm to_remove w = (w', Ok tt) ∧
    shipping_methods (db w') = shipping_methods (db w) ∧
    channels (db w') = channels (db w) ∧
    listings (db w') =
      filter (λ r, ¬ (models.shipping_method_id r = models.sm_pk sm ∧
                      models.channel_id r ∈ to_remove)) (listings (db w)) ∧
    (∀ r, r ∈ listings (db w') ↔
          r ∈ listings (db w) ∧
          ¬ (models.shipping_method_id r = models.sm_pk sm ∧
             models.channel_id r ∈ to_remove)) ∧
    (∀ ch, ch ∈ to_remove →
           rows_of (models.sm_pk sm) ch (listings (db w)) = [] →
           remove_channels sm (filter (λ x, x ≠ ch) to_remove) w = (w', Ok tt)).
Proof.
  intros Hacc.
  destruct (remove_channels_cases sm to_remove w) as [[Hrej _]|[_ Hrun]]; [done|].
  eexists. split; [exact Hrun|]. cbn [db shipping_methods channels listings set_listings].
  split_and!; try done.
  - intros r. unfold delete_rows. rewrite list_elem_of_filter. tauto.
  - intros ch Hch Hnone.
    destruct (remove_channels_cases sm (filter (λ x, x ≠ ch) to_remove) w)
      as [[Hrej _]|[_ ->]]; [done|].
    by rewrite delete_rows_absent.
Qed.

(** C7: two removals of the same channels in a row, neither rejected by
    the storage layer: after the first and after the second there is no
    listing row of the shipping method for any of the channels, and the
    second one leaves the database as the first one left it. *)
Theorem remove_channels_idempotent sm to_remove (w w1 w2 : World) :
  remove_channels sm to_remove w = (w1, Ok tt) →
  remove_channels sm to_remove w1 = (w2, Ok tt) →
  db w2 = db w1 ∧
  ∀ ch, ch ∈ to_remove →
        rows_of (models.sm_pk sm) ch (listings (db w1)) = [] ∧
        rows_of (models.sm_pk sm) ch (listings (db w2)) = [].
Proof.
  intros Hfirst Hsecond.
  destruct (remove_channels_cases sm to_remove w) as [[_ Hrun]|[_ Hrun]];
    rewrite Hrun in Hfirst; [done|]. injection Hfirst as <-.
  destruct (remove_channels_cases sm to_remove
    {| db := set_listings (db w)
               (delete_rows (models.sm_pk sm) to_remove (listings (db w)));
       pending := tail (pending w) |}) as [[_ Hrun2]|[_ Hrun2]];
    rewrite Hrun2 in Hsecond; [done|]. injection Hsecond as <-.
  cbn [db listings set_listings shipping_methods channels].
  assert (Hidem : delete_rows (models.sm_pk sm) to_remove
            (delete_rows (models.sm_pk sm) to_remove (listings (db w))) =
          delete_rows (models.sm_pk sm) to_remove (listings (db w))).
  { unfold delete_rows. rewrite list_filter_filter.
    apply list_filter_iff. tauto. }
  split.
  - unfold set_listings. cbn [db listings shipping_methods channels].
    by rewrite Hidem.
  - intros ch Hch. rewrite Hidem. split; by apply delete_rows_rows_of.
Qed.

(** ** The atomic save *)

Lemma save_run sm cleaned_input (w : World) :
  save sm cleaned_input w =
  match add_channels sm (dict_get [] (cleaned_add_channels cleaned_input)) w with
  | (w1, Ok _) =>
      match remove_channels sm
              (dict_get [] (cleaned_remove_channels cleaned_input)) w1 with
      | (w2, Ok a) => (w2, Ok a)
      | (w2, Raise e) => ({| db := db w; pending := pending w2 |}, Raise e)
      end
  | (w1, Raise e) => ({| db := db w; pending := pending w1 |}, Raise e)
  end.
Proof.
  unfold save, orm.atomic, save_block. rewrite bind_run.
  destruct (add_channels _ _ w) as [w1 [[]|e]]; [|done].
  by destruct (remove_channels _ _ w1) as [w2 [[]|e]].
Qed.

(** A property of the database that every upsert and every filtered
    delete for the shipping method keep is kept by [save], however it
    ends. *)
Lemma save_preserves (I : Database → Prop) sm cleaned_input :
  (∀ d ch p mn mx,
     I d → I (set_listings d (upsert (models.sm_pk sm) ch p mn mx (listings d)))) →
  (∀ d chs,
     I d → I (set_listings d (delete_rows (models.sm_pk sm) chs (listings d)))) →
  ∀ (w w' : World) res,
    save sm cleaned_input w = (w', res) → I (db w) → I (db w').
Proof.
  intros Hup Hdel w w' res. rewrite save_run. intros Hrun HI.
  destruct (add_channels _ _ w) as [w1 [[]|e]] eqn:Hadd;
    [|by injection Hrun as <- _].
  assert (HI1 : I (db w1)).
  { eapply add_channels_preserves; [|exact Hadd|done]. intros; by apply Hup. }
  destruct (remove_channels_cases sm
    (dict_get [] (cleaned_remove_channels cleaned_input)) w1)
    as [[_ Hrem]|[_ Hrem]]; rewrite Hrem in Hrun; injection Hrun as <- _; [done|].
  by apply Hdel.
Qed.

Lemma save_unique sm cleaned_input (w w' : World) res :
  save sm cleaned_input w = (w', res) →
  unique_listings (db w) → unique_listings (db w').
Proof.
  apply (save_preserves unique_listings).
  - intros d ch p mn mx. apply upsert_unique.
  - intros d chs. apply delete_rows_unique.
Qed.

Lemma save_frame sm cleaned_input (w w' : World) res :
  save sm cleaned_input w = (w', res) →
  shipping_methods (db w') = shipping_methods (db w) ∧
  channels (db w') = channels (db w) ∧
  other_listings (models.sm_pk sm) (db w') = other_listings (models.sm_pk sm) (db w).
Proof.
  intros Hrun.
  apply (save_preserves
    (λ d, shipping_methods d = shipping_methods (db w) ∧
          channels d = channels (db w) ∧
          other_listings (models.sm_pk sm) d = other_listings (models.sm_pk sm) (db w))
    sm cleaned_input) with (w := w) (res := res); [| |done|done].
  - intros d ch p mn mx (? & ? & Ho). split_and!; [done..|].
    rewrite <- Ho. apply upsert_other_shipping_methods.
  - intros d chs (? & ? & Ho). split_and!; [done..|].
    rewrite <- Ho. apply delete_rows_other_shipping_methods.
Qed.

(** C2: [save] is all or nothing: when it ends with an exception, from
    the add step or from the remove step after a completed add step, the
    database is the one it started from; when it returns, the add step
    and then the remove step both ran to their end. *)
Theorem save_all_or_nothing sm cleaned_input (w w' : World) res :
  save sm cleaned_input w = (w', res) →
  (∀ e, res = Raise e → db w' = db w) ∧
  (res = Ok tt →
   ∃ w1,
     add_channels sm (dict_get [] (cleaned_add_channels cleaned_input)) w =
       (w1, Ok tt) ∧
     remove_channels sm (dict_get [] (cleaned_remove_channels cleaned_input)) w1 =
       (w', Ok tt)).
Proof.
  rewrite save_run. intros Hrun.
  destruct (add_channels _ _ w) as [w1 [[]|e1]];
    [|injection Hrun as <- <-; by split].
  destruct (remove_channels _ _ w1) as [w2 [[]|e2]] eqn:Hrem;
    injection Hrun as <- <-.
  - split; [done|]. intros _. by exists w1.
  - by split.
Qed.

(** ** Validation and the entry point *)

Lemma get_channel_or_error_pure field id (w : World) :
  ∃ res, get_channel_or_error field id w = (w, res).
Proof.
  unfold get_channel_or_error. rewrite bind_run. unfold orm.query.
  destruct (channels (db w) !! id); eauto.
Qed.

Lemma mapM_get_channel_pure field ids (w : World) :
  ∃ res, mapM (get_channel_or_error field) ids w = (w, res).
Proof.
  induction ids as [|id ids IH]; [by eexists|].
  cbn [mapM]. rewrite bind_run.
  destruct (get_channel_or_error_pure field id w) as [[c|e] ->]; [|by eexists].
  rewrite bind_run. destruct IH as [[cs|e] ->]; by eexists.
Qed.

Lemma clean_channels_run input error_code (w : World) :
  ∃ res,
    clean_channels input ∅ error_code w = (w, res) ∧
    (validation_errors input error_code ≠ ∅ →
     res = Ok (validation_errors input error_code,
               {| cleaned_add_channels := None;
                  cleaned_remove_channels := None |})) ∧
    (∀ errors cleaned_input,
       res = Ok (errors, cleaned_input) →
       errors = validation_errors input error_code).
Proof.
  unfold clean_channels. fold (validation_errors input error_code).
  destruct (decide (validation_errors input error_code ≠ ∅)) as [Herr|Herr].
  - eexists. split; [done|]. split; [done|]. by intros ?? [= <- _].
  - rewrite bind_run.
    destruct (mapM_get_channel_pure "channel_id"
      (channel_id <$> dict_get [] (add_channels_input input)) w) as [[cs|e] ->].
    + rewrite bind_run.
      destruct (mapM_get_channel_pure "remove_channels"
        (dict_get [] (remove_channels_input input)) w) as [[rs|e] ->].
      * eexists. split; [done|]. split; [done|]. by intros ?? [= <- _].
      * eexists. split; [done|]. split; [done|]. done.
    + eexists. split; [done|]. split; [done|]. done.
Qed.

Lemma perform_mutation_cases id input (w : World) :
  ∃ w' res,
    perform_mutation id input w = (w', res) ∧
    ((w' = w ∧ ∃ e, res = Raise e) ∨
     (∃ sm cleaned_input r,
        shipping_methods (db w) !! id = Some sm ∧
        save sm cleaned_input w = (w', r) ∧
        res = match r with
              | Ok _ => Ok {| shipping_method :=
                                {| node := sm; channel_slug := None |} |}
              | Raise e => Raise e
              end)).
Proof.
  unfold perform_mutation, get_node_or_error, orm.query.
  rewrite !bind_run.
  destruct (shipping_methods (db w) !! id) as [sm|] eqn:Hsm;
    [|eexists _, _; split; [done|]; left; eauto].
  cbn [mret M_ret]. rewrite bind_run.
  destruct (clean_channels_run input DUPLICATED_INPUT_ITEM w)
    as ([[errors cleaned_input]|e] & -> & _ & Herrors);
    [|eexists _, _; split; [done|]; left; eauto].
  destruct (decide (errors ≠ ∅));
    [eexists _, _; split; [done|]; left; eauto|].
  rewrite bind_run.
  destruct (save sm cleaned_input w) as [w1 [[]|e]] eqn:Hsave.
  - eexists _, _. split; [done|]. right. exists sm, cleaned_input, (Ok tt). eauto.
  - eexists _, _. split; [done|]. right.
    exists sm, cleaned_input, (Raise e). eauto.
Qed.

Lemma perform_mutation_unique id input (w : World) :
  unique_listings (db w) →
  unique_listings (db (perform_mutation id input w).1).
Proof.
  intros Hu.
  destruct (perform_mutation_cases id input w)
    as (w' & res & -> & [[-> _]|(sm & ci & r & _ & Hsave & _)]); [done|].
  by eapply save_unique.
Qed.

(** C6: the uniqueness invariant of the join table is kept: from a
    database with at most one listing row per (shipping method, channel),
    the add step, the remove step, [save] and the whole operation each
    end, with a result or with an exception, in a database with at most
    one row per pair. *)
Theorem unique_listings_preserved :
  (∀ sm to_add (w : World),
     unique_listings (db w) →
     unique_listings (db (add_channels sm to_add w).1)) ∧
  (∀ sm to_remove (w : World),
     unique_listings (db w) →
     unique_listings (db (remove_channels sm to_remove w).1)) ∧
  (∀ sm cleaned_input (w : World),
     unique_listings (db w) →
     unique_listings (db (save sm cleaned_input w).1)) ∧
  (∀ id input (w : World),
     unique_listings (db w) →
     unique_listings (db (perform_mutation id input w).1)).
Proof.
  split_and!.
  - intros sm to_add w.
    destruct (add_channels sm to_add w) as [w' res] eqn:Hrun.
    by eapply add_channels_unique.
  - intros sm to_remove w Hu.
    destruct (remove_channels_cases sm to_remove w) as [[_ ->]|[_ ->]]; [done|].
    by apply delete_rows_unique.
  - intros sm cleaned_input w.
    destruct (save sm cleaned_input w) as [w' res] eqn:Hrun.
    by eapply save_unique.
  - apply perform_mutation_unique.
Qed.

(** C8: [save], however it ends, leaves the shipping methods, the
    channels and the listing rows of every other shipping method as they
    were; so does a successful call of the operation, for the shipping
    method it returns. *)
Theorem listings_frame :
  (∀ sm cleaned_input (w : World),
     shipping_methods (db (save sm cleaned_input w).1) = shipping_methods (db w) ∧
     channels (db (save sm cleaned_input w).1) = channels (db w) ∧
     other_listings (models.sm_pk sm) (db (save sm cleaned_input w).1) =
       other_listings (models.sm_pk sm) (db w)) ∧
  (∀ id input (w w' : World) payload,
     perform_mutation id input w = (w', Ok payload) →
     shipping_methods (db w') = shipping_methods (db w) ∧
     channels (db w') = channels (db w) ∧
     other_listings (models.sm_pk (node (shipping_method payload))) (db w') =
       other_listings (models.sm_pk (node (shipping_method payload))) (db w)).
Proof.
  split.
  - intros sm cleaned_input w.
    destruct (save sm cleaned_input w) as [w' res] eqn:Hrun.
    by eapply save_frame.
  - intros id input w w' payload Hrun.
    destruct (perform_mutation_cases id input w)
      as (w1 & res & Heq & [[-> [e ->]]|(sm & ci & r & _ & Hsave & ->)]);
      rewrite Heq in Hrun; [done|].
    destruct r as [[]|e]; [|done]. injection Hrun as <- <-.
    by eapply save_frame.
Qed.

Lemma perform_mutation_unresolved_run id input (w : World) :
  shipping_methods (db w) !! id = None →
  perform_mutation id input w =
    (w, Raise (ValidationError
                 {[ "id" := [ {| code := NOT_FOUND; params := [id] |} ] ]})).
Proof.
  intros Hnone. unfold perform_mutation, get_node_or_error, orm.query.
  by rewrite !bind_run, Hnone.
Qed.

Lemma not_found_not_duplicated {A} field id (w : World) :
  ¬ fails_duplicated (A := A)
      (w, Raise (ValidationError
                   {[ field := [ {| code := NOT_FOUND; params := [id] |} ] ]})) w.
Proof.
  intros (errors & f & items & item & [= <-] & Hlook & Hitem & Hcode).
  apply lookup_singleton_Some in Hlook as [_ <-].
  apply list_elem_of_singleton in Hitem as ->. done.
Qed.

(** C9: an identifier that names no shipping method: the call ends with
    the node resolution error on the field ["id"], not with a
    [DUPLICATED_INPUT_ITEM] error, whatever the channel lists hold,
    duplicates included, and the session is untouched. *)
Theorem perform_mutation_unresolved id input (w : World) :
  shipping_methods (db w) !! id = None →
  perform_mutation id input w =
    (w, Raise (ValidationError
                 {[ "id" := [ {| code := NOT_FOUND; params := [id] |} ] ]})) ∧
  ¬ fails_duplicated (perform_mutation id input w) w.
Proof.
  intros Hnone. rewrite perform_mutation_unresolved_run by done.
  split; [done|]. apply not_found_not_duplicated.
Qed.

Lemma duplicated_values_nil ids : duplicated_values ids = [] ↔ NoDup ids.
Proof.
  induction ids as [|x ids IH]; simpl.
  - split; [intros _; apply NoDup_nil_2 | done].
  - rewrite NoDup_cons, <- IH. case_decide; [|tauto].
    split; [done | tauto].
Qed.

Lemma duplicated_ids_nil add_ids remove_ids :
  duplicated_ids add_ids remove_ids = [] ↔ ∀ x, x ∈ add_ids → x ∉ remove_ids.
Proof.
  unfold duplicated_ids. split.
  - intros Hnil x Hx Hr.
    by apply (filter_nil_not_elem_of _ _ x Hnil).
  - intros Hdisj. induction add_ids as [|x ids IH]; [done|].
    rewrite filter_cons, decide_False by (apply Hdisj; left).
    apply IH. intros y Hy. apply Hdisj. by right.
Qed.

Lemma report_duplicates_lookup field found error_code (errors : ErrorType) f :
  report_duplicates field found error_code errors !! f =
  if decide (found ≠ [] ∧ field = f)
  then Some (default [] (errors !! f) ++ [ {| code := error_code; params := found |} ])
  else errors !! f.
Proof.
  unfold report_duplicates, errors_append. destruct found as [|x found].
  - rewrite decide_False; [done|]. tauto.
  - destruct (decide (field = f)) as [->|Hne].
    + rewrite lookup_insert_eq, decide_True; done.
    + rewrite lookup_insert_ne, decide_False by tauto. done.
Qed.

(** What the errors dict of an input holds, field by field. *)
Lemma validation_errors_lookup input error_code f items :
  validation_errors input error_code !! f = Some items →
  f ∈ ["input"; "add_channels"; "remove_channels"] ∧
  ∃ found, found ≠ [] ∧ items = [ {| code := error_code; params := found |} ].
Proof.
  unfold validation_errors. rewrite !report_duplicates_lookup, lookup_empty.
  repeat case_decide; destruct_and?; simplify_eq/=; intros;
    simplify_eq; (split; [set_solver|eauto]).
Qed.

Lemma validation_errors_fields input error_code :
  let add_channels_ids := channel_id <$> dict_get [] (add_channels_input input) in
  let remove_channels_ids := dict_get [] (remove_channels_input input) in
  ((∃ x, x ∈ add_channels_ids ∧ x ∈ remove_channels_ids) →
   is_Some (validation_errors input error_code !! "input")) ∧
  (¬ NoDup add_channels_ids →
   is_Some (validation_errors input error_code !! "add_channels")) ∧
  (¬ NoDup remove_channels_ids →
   is_Some (validation_errors input error_code !! "remove_channels")).
Proof.
  intros add_channels_ids remove_channels_ids.
  unfold validation_errors. rewrite !report_duplicates_lookup, lookup_empty.
  fold add_channels_ids remove_channels_ids.
  split_and!.
  - intros (x & Ha & Hr).
    assert (duplicated_ids add_channels_ids remove_channels_ids ≠ []).
    { rewrite duplicated_ids_nil. intros Hdisj. by apply (Hdisj x). }
    repeat case_decide; destruct_and?; simplify_eq; eauto; tauto.
  - rewrite <- duplicated_values_nil. intros Hdup.
    repeat case_decide; destruct_and?; simplify_eq; eauto; tauto.
  - rewrite <- duplicated_values_nil. intros Hdup.
    repeat case_decide; destruct_and?; simplify_eq; eauto; tauto.
Qed.

Lemma validation_errors_nonempty input error_code :
  ¬ NoDup (input_ids input) → validation_errors input error_code ≠ ∅.
Proof.
  unfold input_ids. rewrite NoDup_app. intros Hdup Hempty.
  destruct (validation_errors_fields input error_code) as (Hboth & Hadd & Hrem).
  rewrite Hempty, lookup_empty in Hboth, Hadd, Hrem.
  apply Hdup. split_and!.
  - destruct (decide (NoDup (channel_id <$> dict_get [] (add_channels_input input))))
      as [|Hn]; [done|]. by destruct (Hadd Hn).
  - intros x Ha Hr. by destruct Hboth; [exists x|].
  - destruct (decide (NoDup (dict_get [] (remove_channels_input input))))
      as [|Hn]; [done|]. by destruct (Hrem Hn).
Qed.

(** C1, as the code has it: for an identifier that names a shipping
    method, an input with a channel identifier in both lists, or twice in
    one list, ends in a validation error; every item of it has the code
    [DUPLICATED_INPUT_ITEM] and sits on the field of the duplicate
    (["input"] for an identifier in both lists, the list's own field for
    a repeated one); the session is the one the call started from, so no
    statement of the save step ran. *)
Theorem perform_mutation_rejects_duplicates id input (w : World) sm :
  shipping_methods (db w) !! id = Some sm →
  ¬ NoDup (input_ids input) →
  let errors := validation_errors input DUPLICATED_INPUT_ITEM in
  let add_channels_ids := channel_id <$> dict_get [] (add_channels_input input) in
  let remove_channels_ids := dict_get [] (remove_channels_input input) in
  perform_mutation id input w = (w, Raise (ValidationError errors)) ∧
  fails_duplicated (perform_mutation id input w) w ∧
  (∀ field items,
     errors !! field = Some items →
     field ∈ ["input"; "add_channels"; "remove_channels"] ∧
     items ≠ [] ∧
     Forall (λ item, code item = DUPLICATED_INPUT_ITEM) items) ∧
  ((∃ x, x ∈ add_channels_ids ∧ x ∈ remove_channels_ids) →
   is_Some (errors !! "input")) ∧
  (¬ NoDup add_channels_ids → is_Some (errors !! "add_channels")) ∧
  (¬ NoDup remove_channels_ids → is_Some (errors !! "remove_channels")).
Proof.
  intros Hsm Hdup errors add_channels_ids remove_channels_ids.
  assert (Hne : errors ≠ ∅) by (by apply validation_errors_nonempty).
  assert (Hrun : perform_mutation id input w = (w, Raise (ValidationError errors))).
  { unfold perform_mutation, get_node_or_error, orm.query.
    rewrite !bind_run, Hsm. cbn [mret M_ret]. rewrite bind_run.
    destruct (clean_channels_run input DUPLICATED_INPUT_ITEM w)
      as (res & -> & Hres & _).
    rewrite (Hres Hne). fold errors. by rewrite decide_True. }
  assert (Hitems : ∀ field items,
     errors !! field = Some items →
     field ∈ ["input"; "add_channels"; "remove_channels"] ∧
     items ≠ [] ∧
     Forall (λ item, code item = DUPLICATED_INPUT_ITEM) items).
  { intros field items Hlook.
    apply validation_errors_lookup in Hlook as (Hfield & found & _ & ->).
    split_and!; [done|done|]. by apply Forall_singleton. }
  split_and!; [done| |done|..]; [|apply validation_errors_fields..].
  rewrite Hrun.
  destruct (map_choose errors Hne) as (field & items & Hlook).
  destruct (Hitems field items Hlook) as (_ & Hnil & Hall).
  destruct items as [|item items]; [done|].
  exists errors, field, (item :: items), item.
  split_and!; [done|done|left|]. by apply Forall_cons in Hall as [? _].
Qed.

(** ** The order of the two steps *)

Lemma remove_channels_quiet sm to_remove (w : World) :
  pending w = [] →
  remove_channels sm to_remove w = (after_delete sm to_remove w, Ok tt).
Proof.
  intros Hq. destruct (remove_channels_cases sm to_remove w)
    as [[Hrej _]|[_ ->]]; rewrite Hq in *; done.
Qed.

Lemma add_channels_quiet_pending sm to_add :
  ∀ (w w' : World) res,
    pending w = [] → add_channels sm to_add w = (w', res) → pending w' = [].
Proof.
  induction to_add as [|e rest IH]; intros w w' res Hq Hrun.
  - by injection Hrun as <- _.
  - rewrite add_channels_cons in Hrun.
    destruct (channel e) as [c|]; [|by injection Hrun as <- _].
    rewrite update_or_create_quiet in Hrun by done.
    case_decide; [|by injection Hrun as <- _].
    by eapply IH in Hrun.
Qed.

Lemma delete_rows_rows_of_other sm chs ch rows :
  ch ∉ chs → rows_of sm ch (delete_rows sm chs rows) = rows_of sm ch rows.
Proof.
  intros Hch. unfold rows_of, delete_rows. rewrite list_filter_filter.
  apply list_filter_iff. intros r. split; [tauto|].
  intros Hk. split; [done|]. injection Hk as _ Hc.
  intros [_ Hmem]. apply Hch. by rewrite <- Hc.
Qed.

Lemma delete_rows_upsert sm chs ch p mn mx rows :
  ch ∉ chs →
  delete_rows sm chs (upsert sm ch p mn mx rows) =
  upsert sm ch p mn mx (delete_rows sm chs rows).
Proof.
  intros Hch. unfold upsert. rewrite delete_rows_rows_of_other by done.
  destruct (rows_of sm ch rows) as [|r found].
  - unfold delete_rows. rewrite filter_app, filter_cons.
    rewrite decide_True by (simpl; tauto). done.
  - unfold delete_rows. induction rows as [|x rows IH]; [done|].
    rewrite fmap_cons, !filter_cons, IH.
    destruct (decide (listing_key x = (sm, ch))) as [Hk|Hk].
    + injection Hk as Hsm Hc.
      rewrite !decide_True by (simpl; rewrite ?Hc; tauto).
      rewrite fmap_cons. unfold listing_key.
      rewrite Hsm, Hc, decide_True by done. done.
    + destruct (decide (¬ (models.shipping_method_id x = sm ∧
                           models.channel_id x ∈ chs))); [|done].
      by rewrite fmap_cons, decide_False.
Qed.

(** The add step after the delete, against the add step before it, when
    no channel is in both and no statement is rejected. *)
Lemma add_channels_after_delete sm to_remove to_add :
  (∀ ch, ch ∈ add_pks to_add → ch ∉ to_remove) →
  ∀ w : World,
    pending w = [] →
    match add_channels sm to_add w with
    | (w1, Ok _) =>
        add_channels sm to_add (after_delete sm to_remove w) =
          (after_delete sm to_remove w1, Ok tt)
    | (w1, Raise e) =>
        ∃ w2, add_channels sm to_add (after_delete sm to_remove w) =
                (w2, Raise e) ∧ pending w2 = []
    end.
Proof.
  induction to_add as [|e rest IH]; intros Hdisj w Hq.
  - done.
  - rewrite !add_channels_cons. rewrite add_pks_cons in Hdisj.
    destruct (channel e) as [c|]; [|by eexists].
    rewrite !update_or_create_quiet by done.
    cbn [after_delete db listings set_listings].
    rewrite delete_rows_rows_of_other by (apply Hdisj; left).
    case_decide; [|by eexists].
    rewrite <- delete_rows_upsert by (apply Hdisj; left).
    apply (IH (λ ch Hch, Hdisj ch (list_elem_of_further _ _ _ Hch))
      {| db := set_listings (db w)
                 (upsert (models.sm_pk sm) (models.ch_pk c)
                    (dict_get None (price e)) (dict_get None (min_value e))
                    (dict_get None (max_value e)) (listings (db w)));
         pending := [] |}).
    done.
Qed.

Lemma drop_tail {A} (n : nat) (l : list A) : drop n (tail l) = drop (S n) l.
Proof. by destruct l, n. Qed.

Lemma tail_drop {A} (n : nat) (l : list A) : tail (drop n l) = drop (S n) l.
Proof.
  revert l. induction n as [|n IH]; intros [|x l]; try done.
  apply IH.
Qed.

Lemma accepted_S_drop n p :
  accepted (S n) p ↔ accepted n p ∧ head (drop n p) ≠ Some true.
Proof.
  revert p. induction n as [|n IH]; intros p.
  - simpl. rewrite drop_0. tauto.
  - change (accepted (S (S n)) p) with
      (head p ≠ Some true ∧ accepted (S n) (tail p)).
    rewrite IH, drop_tail. simpl. tauto.
Qed.

(** A successful add step: it is successful when no statement is
    rejected, and the storage layer accepted its two statements per
    entry. *)
Lemma add_channels_ok sm to_add :
  ∀ w w' : World,
    add_channels sm to_add w = (w', Ok tt) ↔
    ∃ d',
      add_channels sm to_add {| db := db w; pending := [] |} =
        ({| db := d'; pending := [] |}, Ok tt) ∧
      accepted (2 * length to_add) (pending w) ∧
      w' = {| db := d'; pending := drop (2 * length to_add) (pending w) |}.
Proof.
  induction to_add as [|e rest IH]; intros w w'.
  - simpl. split.
    + intros [= <-]. exists (db w). rewrite drop_0. by destruct w.
    + intros (d' & [= <-] & _ & ->). rewrite drop_0. by destruct w.
  - replace (2 * length (e :: rest))%nat with (S (S (2 * length rest)))
      by (simpl; lia).
    rewrite !add_channels_cons.
    destruct (channel e) as [c|]; [|split; [done|by intros (? & ? & _)]].
    rewrite (update_or_create_quiet _ _ _ _ _ {| db := db w; pending := [] |})
      by done.
    cbn [db]. rewrite <- !drop_tail. cbn [accepted].
    split.
    + intros Hrun.
      destruct (orm.update_or_create _ _ _ _ _ w) as [w1 [[]|ex]] eqn:Hup;
        [|done].
      apply update_or_create_ok in Hup as (Hlen & H0 & H1 & ->).
      apply IH in Hrun as (d' & Hquiet & Hacc & ->).
      exists d'. by rewrite decide_True.
    + intros (d' & Hquiet & (H0 & H1 & Hacc) & ->).
      case_decide as Hlen; [|done].
      rewrite (proj2 (update_or_create_ok _ _ _ _ _ w _)
        (conj Hlen (conj H0 (conj H1 eq_refl)))).
      apply IH. by exists d'.
Qed.

Lemma save_remove_first_run sm cleaned_input (w : World) :
  save_remove_first sm cleaned_input w =
  match remove_channels sm
          (dict_get [] (cleaned_remove_channels cleaned_input)) w with
  | (w1, Ok _) =>
      match add_channels sm
              (dict_get [] (cleaned_add_channels cleaned_input)) w1 with
      | (w2, Ok a) => (w2, Ok a)
      | (w2, Raise e) => ({| db := db w; pending := pending w2 |}, Raise e)
      end
  | (w1, Raise e) => ({| db := db w; pending := pending w1 |}, Raise e)
  end.
Proof.
  unfold save_remove_first, orm.atomic. rewrite bind_run.
  destruct (remove_channels _ _ w) as [w1 [[]|e]]; [|done].
  by destruct (add_channels _ _ w1) as [w2 [[]|e]].
Qed.

(** The two orders return together, and with the same session. *)
Lemma save_orders_ok sm cleaned_input (w w' : World) :
  (∀ ch, ch ∈ add_pks (dict_get [] (cleaned_add_channels cleaned_input)) →
         ch ∉ dict_get [] (cleaned_remove_channels cleaned_input)) →
  save sm cleaned_input w = (w', Ok tt) ↔
  save_remove_first sm cleaned_input w = (w', Ok tt).
Proof.
  intros Hdisj. rewrite save_run, save_remove_first_run.
  set (to_add := dict_get [] (cleaned_add_channels cleaned_input)) in *.
  set (to_remove := dict_get [] (cleaned_remove_channels cleaned_input)) in *.
  pose proof (add_channels_after_delete sm to_remove to_add Hdisj
    {| db := db w; pending := [] |} eq_refl) as Hcomm.
  unfold after_delete in Hcomm. cbn [db] in Hcomm.
  split.
  - destruct (add_channels sm to_add w) as [w1 [[]|e]] eqn:Hadd; [|done].
    apply add_channels_ok in Hadd as (d1 & Hquiet & Hacc & ->).
    rewrite Hquiet in Hcomm.
    destruct (remove_channels_cases sm to_remove
      {| db := d1; pending := drop (2 * length to_add) (pending w) |})
      as [[_ ->]|[Hlast ->]]; [done|]. intros [= <-]. cbn [db pending] in *.
    assert (Hall : accepted (S (2 * length to_add)) (pending w))
      by (by apply accepted_S_drop).
    destruct Hall as [Hfirst Hrest].
    destruct (remove_channels_cases sm to_remove w) as [[Hrej _]|[_ ->]]; [done|].
    assert (Hadd : add_channels sm to_add
      {| db := set_listings (db w)
                 (delete_rows (models.sm_pk sm) to_remove (listings (db w)));
         pending := tail (pending w) |} =
      ({| db := set_listings d1
                  (delete_rows (models.sm_pk sm) to_remove (listings d1));
          pending := drop (2 * length to_add) (tail (pending w)) |}, Ok tt)).
    { apply add_channels_ok. eexists. split; [exact Hcomm|].
      split; [exact Hrest|reflexivity]. }
    rewrite Hadd. by rewrite tail_drop, drop_tail.
  - destruct (remove_channels_cases sm to_remove w) as [[_ ->]|[Hfirst ->]];
      [done|].
    intros Hrev.
    destruct (add_channels sm to_add
      {| db := set_listings (db w)
                 (delete_rows (models.sm_pk sm) to_remove (listings (db w)));
         pending := tail (pending w) |}) as [w2 [[]|e]] eqn:Hadd; [|done].
    injection Hrev as <-.
    apply add_channels_ok in Hadd as (d2 & Hquiet & Hrest & ->).
    cbn [db pending] in *.
    assert (Hall : accepted (S (2 * length to_add)) (pending w)) by done.
    apply accepted_S_drop in Hall as [Hacc Hlast].
    destruct (add_channels sm to_add {| db := db w; pending := [] |})
      as [w1 [[]|e]] eqn:Hquiet1.
    + rewrite Hquiet in Hcomm. injection Hcomm as ->.
      assert (Hq1 : pending w1 = [])
        by (by eapply add_channels_quiet_pending in Hquiet1).
      assert (Hadd : add_channels sm to_add w =
        ({| db := db w1; pending := drop (2 * length to_add) (pending w) |},
         Ok tt)).
      { apply add_channels_ok. exists (db w1).
        split; [|split; [exact Hacc|reflexivity]].
        rewrite Hquiet1. destruct w1 as [d1 p1]. simpl in Hq1. by subst p1. }
      rewrite Hadd.
      destruct (remove_channels_cases sm to_remove
        {| db := db w1; pending := drop (2 * length to_add) (pending w) |})
        as [[Hrej _]|[_ ->]]; [done|].
      cbn [db pending]. by rewrite tail_drop, drop_tail.
    + destruct Hcomm as (w3 & Hraise & _). by rewrite Hquiet in Hraise.
Qed.

Lemma save_remove_first_raise sm cleaned_input (w w' : World) e :
  save_remove_first sm cleaned_input w = (w', Raise e) → db w' = db w.
Proof.
  rewrite save_remove_first_run. intros Hrun.
  destruct (remove_channels _ _ w) as [w1 [[]|e1]];
    [|by injection Hrun as <- _].
  destruct (add_channels _ _ w1) as [w2 [[]|e2]]; [done|].
  by injection Hrun as <- _.
Qed.

Lemma save_raise sm cleaned_input (w w' : World) e :
  save sm cleaned_input w = (w', Raise e) → db w' = db w.
Proof.
  rewrite save_run. intros Hrun.
  destruct (add_channels _ _ w) as [w1 [[]|e1]];
    [|by injection Hrun as <- _].
  destruct (remove_channels _ _ w1) as [w2 [[]|e2]]; [done|].
  by injection Hrun as <- _.
Qed.

Lemma save_steps_commute_quiet sm cleaned_input (w : World) :
  pending w = [] →
  (∀ ch, ch ∈ add_pks (dict_get [] (cleaned_add_channels cleaned_input)) →
         ch ∉ dict_get [] (cleaned_remove_channels cleaned_input)) →
  save sm cleaned_input w = save_remove_first sm cleaned_input w.
Proof.
  intros Hq Hdisj. rewrite save_run.
  unfold save_remove_first, orm.atomic. rewrite bind_run.
  rewrite remove_channels_quiet by done.
  pose proof (add_channels_after_delete sm
    (dict_get [] (cleaned_remove_channels cleaned_input))
    (dict_get [] (cleaned_add_channels cleaned_input)) Hdisj w Hq) as Hadd.
  destruct (add_channels sm _ w) as [w1 [[]|e]] eqn:Hrun.
  - rewrite Hadd.
    rewrite remove_channels_quiet
      by (by eapply add_channels_quiet_pending).
    done.
  - destruct Hadd as (w2 & -> & Hq2).
    apply add_channels_quiet_pending in Hrun; [|done].
    cbn [after_delete db pending]. by rewrite Hrun, Hq2.
Qed.

(** C10: on a validated input, where no channel is both added and
    removed, [save] (the add step, then the remove step) and the other
    order (the remove step, then the add step, in one atomic block) end
    in the same database, whatever the storage layer rejects; they return
    together, with the same session; and when no statement is rejected
    they also raise the same exception. *)
Theorem save_steps_commute sm cleaned_input (w : World) :
  (∀ ch, ch ∈ add_pks (dict_get [] (cleaned_add_channels cleaned_input)) →
         ch ∉ dict_get [] (cleaned_remove_channels cleaned_input)) →
  db (save sm cleaned_input w).1 = db (save_remove_first sm cleaned_input w).1 ∧
  (∀ w', save sm cleaned_input w = (w', Ok tt) ↔
         save_remove_first sm cleaned_input w = (w', Ok tt)) ∧
  (pending w = [] →
   save sm cleaned_input w = save_remove_first sm cleaned_input w).
Proof.
  intros Hdisj. split_and!.
  - destruct (save sm cleaned_input w) as [w1 [[]|e1]] eqn:Hsave.
    + apply save_orders_ok in Hsave; [|done]. by rewrite Hsave.
    + destruct (save_remove_first sm cleaned_input w) as [w2 [[]|e2]] eqn:Hrev.
      * apply save_orders_ok in Hrev; [|done]. by rewrite Hsave in Hrev.
      * apply save_raise in Hsave. apply save_remove_first_raise in Hrev.
        simpl. by rewrite Hsave, Hrev.
  - intros w'. by apply save_orders_ok.
  - intros Hq. by apply save_steps_commute_quiet.
Qed.

(** ** Worked instances *)

(** The example of the specification: [channel_usd] is added with the
    price 10.00, [channel_pln] is removed, the row of [express] stays. *)
Example perform_mutation_sample :
  perform_mutation "U2hpcHBpbmdNZXRob2Q6MQ==" sample_input sample_world =
    ({| db := set_listings sample_db
                [ listing 2 2 (Some ten) None None;
                  listing 1 1 (Some ten) None None ];
        pending := [] |},
     Ok {| shipping_method := {| node := standard; channel_slug := None |} |}).
Proof. vm_compute. reflexivity. Qed.

(** Without the atomic block the rejected delete would leave the row the
    add step wrote. *)
Example save_block_partial :
  listings (db (save_block standard sample_cleaned_input rejecting_world).1) =
    listings sample_db ++ [listing 1 1 (Some ten) None None] ∧
  (save_block standard sample_cleaned_input rejecting_world).2 =
    Raise DatabaseError.
Proof. split; vm_compute; reflexivity. Qed.

(** A duplicated channel with a shipping method that does not resolve:
    the input names [channel_usd] in both lists, and the call ends with
    the node resolution error, not with [DUPLICATED_INPUT_ITEM]. *)
Lemma duplicates_unresolved_counterexample :
  ¬ NoDup (input_ids duplicate_input) ∧
  ¬ fails_duplicated
      (perform_mutation "U2hpcHBpbmdNZXRob2Q6OTk=" duplicate_input sample_world)
      sample_world.
Proof.
  split.
  - by intros Hnd%duplicated_values_nil.
  - rewrite perform_mutation_unresolved_run by reflexivity.
    apply not_found_not_duplicated.
Qed.

Lemma perform_mutation_rejects_duplicates_witness :
  fails_duplicated
    (perform_mutation "U2hpcHBpbmdNZXRob2Q6MQ==" duplicate_input sample_world)
    sample_world.
Proof.
  refine (proj1 (proj2 (perform_mutation_rejects_duplicates
    "U2hpcHBpbmdNZXRob2Q6MQ==" duplicate_input sample_world standard _ _))).
  - reflexivity.
  - by intros Hnd%duplicated_values_nil.
Defined.

Lemma save_all_or_nothing_witness :
  (save standard sample_cleaned_input rejecting_world).2 = Raise DatabaseError ∧
  db (save standard sample_cleaned_input rejecting_world).1 = db rejecting_world.
Proof.
  split; [reflexivity|].
  refine (proj1 (save_all_or_nothing standard sample_cleaned_input
    rejecting_world _ _ _) DatabaseError _); reflexivity.
Defined.

Lemma add_channels_overwrites_existing_witness :
  rows_of 1 2
    (listings (db (add_channels standard [add_pln (Some channel_pln)]
                     sample_world).1)) =
    [listing 1 2 (Some ten) None None].
Proof.
  refine (proj1 (add_channels_overwrites_existing standard
    [add_pln (Some channel_pln)] sample_world _ (add_pln (Some channel_pln))
    channel_pln _ _ _ _ _)).
  - reflexivity.
  - apply NoDup_singleton.
  - left.
  - reflexivity.
  - discriminate.
Defined.

Lemma add_channels_creates_missing_witness :
  rows_of 1 1
    (listings (db (add_channels standard [add_usd (Some channel_usd)]
                     sample_world).1)) =
    [listing 1 1 (Some ten) None None].
Proof.
  refine (proj1 (add_channels_creates_missing standard
    [add_usd (Some channel_usd)] sample_world _ (add_usd (Some channel_usd))
    channel_usd _ _ _ _ _)).
  - reflexivity.
  - apply NoDup_singleton.
  - left.
  - reflexivity.
  - reflexivity.
Defined.

Lemma remove_channels_deletes_exactly_witness :
  ∃ w', remove_channels standard [2; 7] sample_world = (w', Ok tt) ∧
        listings (db w') = [listing 2 2 (Some ten) None None].
Proof.
  destruct (remove_channels_deletes_exactly standard [2; 7] sample_world)
    as (w' & Hrun & _ & _ & Hrows & _); [discriminate|].
  exists w'. split; [exact Hrun|]. rewrite Hrows. reflexivity.
Defined.

Lemma remove_channels_idempotent_witness :
  db (remove_channels standard [2]
        (remove_channels standard [2] sample_world).1).1 =
  db (remove_channels standard [2] sample_world).1.
Proof.
  refine (proj1 (remove_channels_idempotent standard [2] sample_world _ _ _ _));
    reflexivity.
Defined.

Lemma unique_listings_preserved_witness :
  unique_listings
    (db (perform_mutation "U2hpcHBpbmdNZXRob2Q6MQ==" sample_input sample_world).1).
Proof.
  apply (proj2 (proj2 (proj2 unique_listings_preserved))).
  unfold unique_listings. apply (bool_decide_unpack _). vm_compute. exact I.
Defined.

Lemma listings_frame_witness :
  other_listings 1
    (db (perform_mutation "U2hpcHBpbmdNZXRob2Q6MQ==" sample_input sample_world).1) =
  other_listings 1 sample_db.
Proof.
  refine (proj2 (proj2 (proj2 listings_frame "U2hpcHBpbmdNZXRob2Q6MQ=="
    sample_input sample_world _
    {| shipping_method := {| node := standard; channel_slug := None |} |} _))).
  vm_compute. reflexivity.
Defined.

Lemma perform_mutation_unresolved_witness :
  ¬ fails_duplicated
      (perform_mutation "U2hpcHBpbmdNZXRob2Q6OTk=" duplicate_input sample_world)
      sample_world.
Proof.
  refine (proj2 (perform_mutation_unresolved "U2hpcHBpbmdNZXRob2Q6OTk="
    duplicate_input sample_world _)).
  reflexivity.
Defined.

Lemma save_steps_commute_witness :
  db (save standard sample_cleaned_input rejecting_world).1 =
  db (save_remove_first standard sample_cleaned_input rejecting_world).1.
Proof.
  apply (save_steps_commute standard sample_cleaned_input rejecting_world).
  intros ch Hadd Hrem.
  apply list_elem_of_singleton in Hadd. apply list_elem_of_singleton in Hrem.
  rewrite Hadd in Hrem. discriminate.
Defined.

(** When a channel is both added and removed the order matters: with
    [channel_pln] both added and removed, [save] ends without its row and
    the other order with it. *)
Example save_order_matters :
  let both := {| cleaned_add_channels := Some [add_pln (Some channel_pln)];
                 cleaned_remove_channels := Some [2] |} in
  rows_of 1 2 (listings (db (save standard both sample_world).1)) = [] ∧
  rows_of 1 2 (listings (db (save_remove_first standard both sample_world).1)) =
    [listing 1 2 (Some ten) None None].
Proof. split; vm_compute; reflexivity. Qed.

(** * Further properties of the mutation *)

(** ** The entry point *)

(** A call that ends with an exception leaves the database as it was:
    the resolution and validation errors are raised before [save], and
    [save] is atomic. *)
Theorem perform_mutation_failure_keeps_database id input (w w' : World) e :
  perform_mutation id input w = (w', Raise e) → db w' = db w.
Proof.
  intros Hrun.
  destruct (perform_mutation_cases id input w)
    as (w1 & res & Heq & [[-> _]|(sm & ci & r & _ & Hsave & ->)]);
    rewrite Heq in Hrun.
  - by injection Hrun as <- _.
  - destruct r as [[]|e1]; [done|]. injection Hrun as <- _.
    by eapply save_raise.
Qed.

Lemma perform_mutation_failure_keeps_database_witness :
  db (perform_mutation "U2hpcHBpbmdNZXRob2Q6MQ==" sample_input rejecting_world).1 =
  db rejecting_world.
Proof.
  apply (perform_mutation_failure_keeps_database "U2hpcHBpbmdNZXRob2Q6MQ=="
           sample_input rejecting_world _ DatabaseError).
  vm_compute. reflexivity.
Defined.

(** A call that returns hands back the shipping method its identifier
    names, viewed without a channel ([channel_slug] is [None]), and its
    session is the one a returning [save] for that shipping method
    left. *)
Theorem perform_mutation_returns_resolved_node id input (w w' : World) payload :
  perform_mutation id input w = (w', Ok payload) →
  shipping_methods (db w) !! id = Some (node (shipping_method payload)) ∧
  channel_slug (shipping_method payload) = None ∧
  ∃ cleaned_input,
    save (node (shipping_method payload)) cleaned_input w = (w', Ok tt).
Proof.
  intros Hrun.
  destruct (perform_mutation_cases id input w)
    as (w1 & res & Heq & [[-> [e ->]]|(sm & ci & r & Hsm & Hsave & ->)]);
    rewrite Heq in Hrun; [done|].
  destruct r as [[]|e]; [|done]. injection Hrun as <- <-.
  split_and!; [done..|]. by exists ci.
Qed.

Lemma perform_mutation_returns_resolved_node_witness :
  shipping_methods sample_db !! "U2hpcHBpbmdNZXRob2Q6MQ==" = Some standard.
Proof.
  refine (proj1 (perform_mutation_returns_resolved_node
    "U2hpcHBpbmdNZXRob2Q6MQ==" sample_input sample_world _
    {| shipping_method := {| node := standard; channel_slug := None |} |} _)).
  vm_compute. reflexivity.
Defined.

(** ** More on the add step *)

Lemma add_channels_app sm to_add1 to_add2 :
  ∀ w : World,
    add_channels sm (to_add1 ++ to_add2) w =
    match add_channels sm to_add1 w with
    | (w1, Ok _) => add_channels sm to_add2 w1
    | (w1, Raise e) => (w1, Raise e)
    end.
Proof.
  induction to_add1 as [|e rest IH]; intros w; [done|].
  rewrite <- app_comm_cons, !add_channels_cons.
  destruct (channel e) as [c|]; [|done].
  destruct (orm.update_or_create _ _ _ _ _ w) as [w1 [[]|ex]]; [|done].
  apply IH.
Qed.

Lemma add_channels_quiet_ok_iff sm to_add :
  ∀ d : Database,
    (∃ d', add_channels sm to_add {| db := d; pending := [] |} =
             ({| db := d'; pending := [] |}, Ok tt)) ↔
    Forall (λ e, ∃ c, channel e = Some c ∧
                      (length (rows_of (models.sm_pk sm) (models.ch_pk c)
                                 (listings d)) ≤ 1)%nat) to_add.
Proof.
  induction to_add as [|e rest IH]; intros d.
  - split; [intros _; constructor|]. intros _. by exists d.
  - rewrite add_channels_cons, Forall_cons.
    destruct (channel e) as [c|];
      [|split; [by intros [? ?]|by intros [(c & ? & _) _]]].
    rewrite update_or_create_quiet by done. cbn [db].
    case_decide as Hlen.
    + rewrite IH. cbn [listings set_listings].
      split.
      * intros Hrest. split; [by exists c|].
        eapply Forall_impl; [exact Hrest|].
        intros e' (c' & Hc' & Hlen'). exists c'. split; [done|].
        destruct (decide (models.ch_pk c' = models.ch_pk c)) as [Heq|Hne].
        -- by rewrite Heq.
        -- by rewrite upsert_rows_of_other in Hlen' by (intros [= ?]; done).
      * intros [_ Hrest].
        eapply Forall_impl; [exact Hrest|].
        intros e' (c' & Hc' & Hlen'). exists c'. split; [done|].
        destruct (decide (models.ch_pk c' = models.ch_pk c)) as [Heq|Hne].
        -- rewrite Heq, upsert_rows_of_same by done. simpl. lia.
        -- by rewrite upsert_rows_of_other by (intros [= ?]; done).
    + split; [by intros [? ?]|].
      intros [(c0 & [= <-] & Hlen0) _]. done.
Qed.

(** When the add step returns: exactly when every entry carries its
    channel, the pair of every entry has at most one row in the table the
    step starts from, and the storage layer accepts two statements per
    entry. *)
Theorem add_channels_returns_iff sm to_add (w : World) :
  (∃ w', add_channels sm to_add w = (w', Ok tt)) ↔
  Forall (λ e, ∃ c, channel e = Some c ∧
                    (length (rows_of (models.sm_pk sm) (models.ch_pk c)
                               (listings (db w))) ≤ 1)%nat) to_add ∧
  accepted (2 * length to_add) (pending w).
Proof.
  rewrite <- add_channels_quiet_ok_iff. split.
  - intros (w' & Hrun). apply add_channels_ok in Hrun as (d' & Hquiet & Hacc & _).
    split; [by exists d'|done].
  - intros [(d' & Hquiet) Hacc]. eexists. apply add_channels_ok.
    exists d'. split_and!; [done|done|reflexivity].
Qed.

(** Entries are applied in order: the row of a pair after a returning
    add step is the one the last entry for its channel asks for, also
    when earlier entries name the same channel. *)
Theorem add_channels_last_entry_wins sm before e after (w w' : World) c :
  add_channels sm (before ++ e :: after) w = (w', Ok tt) →
  channel e = Some c →
  models.ch_pk c ∉ add_pks after →
  rows_of (models.sm_pk sm) (models.ch_pk c) (listings (db w')) =
    [listing (models.sm_pk sm) (models.ch_pk c)
       (stored_value (price e)) (stored_value (min_value e))
       (stored_value (max_value e))].
Proof.
  rewrite add_channels_app. intros Hrun Hc Hlast.
  destruct (add_channels sm before w) as [w1 [[]|ex]]; [|done].
  apply add_channels_ok_inv in Hrun as (c0 & w2 & Hc0 & Hlen & Hdb & Hrest).
  rewrite Hc in Hc0. injection Hc0 as <-.
  rewrite (add_channels_rows_of_other _ _ _ _ _ _ _ Hrest) by (by right).
  rewrite Hdb. cbn [listings set_listings].
  rewrite upsert_rows_of_same by done.
  by rewrite !dict_get_stored_value.
Qed.

Lemma add_channels_last_entry_wins_witness :
  rows_of 1 1
    (listings (db (add_channels standard
       [ {| channel_id := "Q2hhbm5lbDox"; price := Some (Some five_fifty);
            min_value := Some (Some ten); max_value := None;
            channel := Some channel_usd |};
         add_usd (Some channel_usd) ] sample_world).1)) =
    [listing 1 1 (Some ten) None None].
Proof.
  apply (add_channels_last_entry_wins standard
    [ {| channel_id := "Q2hhbm5lbDox"; price := Some (Some five_fifty);
         min_value := Some (Some ten); max_value := None;
         channel := Some channel_usd |} ]
    (add_usd (Some channel_usd)) [] sample_world _ channel_usd).
  - reflexivity.
  - reflexivity.
  - apply not_elem_of_nil.
Defined.

(** What the add step never does, however it ends: it deletes no row and
    moves none, it changes the pair of no row, it leaves the rows of every
    pair it is not asked to write exactly as they are, and it adds no row
    for such a pair. *)
Theorem add_channels_keeps_rows sm to_add (w w' : World) res :
  add_channels sm to_add w = (w', res) →
  (length (listings (db w)) ≤ length (listings (db w')))%nat ∧
  (∀ (i : nat) r,
     listings (db w) !! i = Some r →
     ∃ r', listings (db w') !! i = Some r' ∧
           listing_key r' = listing_key r ∧
           (models.shipping_method_id r ≠ models.sm_pk sm ∨
            models.channel_id r ∉ add_pks to_add → r' = r)) ∧
  (∀ sm' ch',
     sm' ≠ models.sm_pk sm ∨ ch' ∉ add_pks to_add →
     rows_of sm' ch' (listings (db w')) = rows_of sm' ch' (listings (db w))).
Proof.
  intros Hrun. split_and!.
  - apply (add_channels_preserves
      (λ d, (length (listings (db w)) ≤ length (listings d))%nat)
      sm to_add) with (w := w) (res := res); [|done|done].
    intros d ch p mn mx _ Hle. cbn [listings set_listings].
    rewrite upsert_length. destruct (rows_of _ _ _); lia.
  - intros i r Hi.
    apply (add_channels_preserves
      (λ d, ∃ r', listings d !! i = Some r' ∧
                  listing_key r' = listing_key r ∧
                  (models.shipping_method_id r ≠ models.sm_pk sm ∨
                   models.channel_id r ∉ add_pks to_add → r' = r))
      sm to_add) with (w := w) (res := res); [|done|by exists r].
    intros d ch p mn mx Hch (r' & Hr' & Hk & Hsame).
    cbn [listings set_listings]. erewrite upsert_lookup by done.
    eexists. split; [done|].
    destruct (decide (listing_key r' = (models.sm_pk sm, ch))) as [Hd|Hd].
    + split; [by rewrite <- Hk, Hd|]. intros Hother.
      rewrite Hk in Hd. injection Hd as Hsm Hc.
      destruct Hother as [Hne|Hne]; [done|]. by rewrite Hc in Hne.
    + done.
  - intros sm' ch'. by apply (add_channels_rows_of_other sm to_add w w' res).
Qed.

Lemma add_channels_keeps_rows_witness :
  (length (listings sample_db) ≤
   length (listings (db (add_channels standard [add_usd (Some channel_usd)]
                           rejecting_world).1)))%nat.
Proof.
  refine (proj1 (add_channels_keeps_rows standard [add_usd (Some channel_usd)]
    rejecting_world _ (Ok tt) _)).
  vm_compute. reflexivity.
Defined.

Lemma upsert_same sm ch p mn mx rows :
  rows_of sm ch rows = [listing sm ch p mn mx] →
  upsert sm ch p mn mx rows = rows.
Proof.
  intros Hrow. unfold upsert. rewrite Hrow.
  rewrite <- (list_fmap_id rows) at 2. apply list_fmap_ext.
  intros i x Hx. case_decide as Hk; [|done].
  assert (Hmem : x ∈ rows_of sm ch rows).
  { apply list_elem_of_filter. split; [done|]. by eapply list_elem_of_lookup_2. }
  rewrite Hrow in Hmem. by apply list_elem_of_singleton in Hmem.
Qed.

(** An add step whose every entry finds its own row in the table changes
    nothing. *)
Lemma add_channels_fixed sm to_add :
  ∀ w w' : World,
    (∀ e c, e ∈ to_add → channel e = Some c →
            rows_of (models.sm_pk sm) (models.ch_pk c) (listings (db w)) =
              [listing_of sm c e]) →
    add_channels sm to_add w = (w', Ok tt) → db w' = db w.
Proof.
  induction to_add as [|e rest IH]; intros w w' Hrows Hrun.
  - by injection Hrun as <-.
  - apply add_channels_ok_inv in Hrun as (c & w1 & Hc & _ & Hdb & Hrest).
    rewrite upsert_same in Hdb by (apply (Hrows e c); [left|done]).
    assert (Hsame : db w1 = db w) by (rewrite Hdb; by destruct (db w)).
    rewrite <- Hsame. apply IH; [|done].
    intros e' c' Hin Hc'. rewrite Hsame. apply Hrows; [by right|done].
Qed.

(** The add step is idempotent on a validated list of entries: a second
    returning run with the same entries leaves the database as the first
    one left it. *)
Theorem add_channels_twice sm to_add (w w1 w2 : World) :
  NoDup (add_pks to_add) →
  add_channels sm to_add w = (w1, Ok tt) →
  add_channels sm to_add w1 = (w2, Ok tt) →
  db w2 = db w1.
Proof.
  intros Hnd Hfirst Hsecond.
  eapply add_channels_fixed; [|exact Hsecond].
  intros e c Hin Hc. by eapply add_channels_rows_of_added.
Qed.

Lemma add_channels_twice_witness :
  db (add_channels standard [add_usd (Some channel_usd)]
        (add_channels standard [add_usd (Some channel_usd)] sample_world).1).1 =
  db (add_channels standard [add_usd (Some channel_usd)] sample_world).1.
Proof.
  apply (add_channels_twice standard [add_usd (Some channel_usd)]
           sample_world _ _).
  - apply NoDup_singleton.
  - reflexivity.
  - reflexivity.
Defined.

(** An entry without the ["channel"] key: the add step has applied the
    entries before it, raises [KeyError] there and goes no further;
    [save] raises the same exception and, being atomic, leaves the
    database as it was. *)
Theorem add_channels_stops_at_missing_channel
    sm before e after to_remove (w w1 : World) :
  add_channels sm before w = (w1, Ok tt) →
  channel e = None →
  add_channels sm (before ++ e :: after) w = (w1, Raise (KeyError "channel")) ∧
  save sm {| cleaned_add_channels := Some (before ++ e :: after);
             cleaned_remove_channels := to_remove |} w =
    ({| db := db w; pending := pending w1 |}, Raise (KeyError "channel")).
Proof.
  intros Hbefore Hnone.
  assert (Hrun : add_channels sm (before ++ e :: after) w =
                 (w1, Raise (KeyError "channel"))).
  { by rewrite add_channels_app, Hbefore, add_channels_cons, Hnone. }
  split; [done|]. rewrite save_run. unfold dict_get. simpl.
  by rewrite Hrun.
Qed.

Lemma add_channels_stops_at_missing_channel_witness :
  listings (db (add_channels standard
                  [add_usd (Some channel_usd); add_pln None] sample_world).1) =
    listings sample_db ++ [listing 1 1 (Some ten) None None] ∧
  (add_channels standard [add_usd (Some channel_usd); add_pln None]
     sample_world).2 = Raise (KeyError "channel").
Proof.
  pose proof (proj1 (add_channels_stops_at_missing_channel standard
    [add_usd (Some channel_usd)] (add_pln None) [] None sample_world
    (add_channels standard [add_usd (Some channel_usd)] sample_world).1
    eq_refl eq_refl)) as Hrun.
  simpl app in Hrun. rewrite Hrun. split; reflexivity.
Defined.

(** ** More on the remove step and on [save] *)

Lemma filter_all {A} (P : A → Prop) `{!∀ x, Decision (P x)} (l : list A) :
  Forall P l → filter P l = l.
Proof.
  induction 1 as [|x l HP _ IH]; [done|].
  by rewrite filter_cons, decide_True, IH.
Qed.

Lemma filter_none {A} (P : A → Prop) `{!∀ x, Decision (P x)} (l : list A) :
  Forall (λ x, ¬ P x) l → filter P l = [].
Proof.
  induction 1 as [|x l HP _ IH]; [done|].
  by rewrite filter_cons, decide_False, IH.
Qed.

Lemma delete_rows_none sm chs rows :
  (∀ ch, ch ∈ chs → rows_of sm ch rows = []) →
  delete_rows sm chs rows = rows.
Proof.
  intros Hnone. unfold delete_rows. apply filter_all, Forall_forall.
  intros r Hr [Hsm Hch]. specialize (Hnone _ Hch).
  apply rows_of_nil_key in Hnone. apply Hnone.
  apply list_elem_of_fmap. exists r. split; [|done].
  unfold listing_key. by rewrite Hsm.
Qed.

Lemma delete_rows_app_chs sm chs1 chs2 rows :
  delete_rows sm chs2 (delete_rows sm chs1 rows) =
  delete_rows sm (chs1 ++ chs2) rows.
Proof.
  unfold delete_rows. rewrite list_filter_filter.
  apply list_filter_iff. intros r. rewrite elem_of_app. tauto.
Qed.

Lemma delete_rows_rows_of_kept sm chs sm' ch rows :
  sm' ≠ sm ∨ ch ∉ chs →
  rows_of sm' ch (delete_rows sm chs rows) = rows_of sm' ch rows.
Proof.
  intros Hkept. unfold rows_of, delete_rows. rewrite list_filter_filter.
  apply list_filter_iff. intros r. split; [tauto|].
  intros Hk. split; [done|]. injection Hk as Hsm Hc.
  intros [Hsm' Hmem]. destruct Hkept as [Hne|Hne].
  - apply Hne. by rewrite <- Hsm, Hsm'.
  - apply Hne. by rewrite <- Hc.
Qed.


Lemma save_ok_inv sm cleaned_input (w w' : World) :
  save sm cleaned_input w = (w', Ok tt) →
  ∃ w1,
    add_channels sm (dict_get [] (cleaned_add_channels cleaned_input)) w =
      (w1, Ok tt) ∧
    db w' = set_listings (db w1)
              (delete_rows (models.sm_pk sm)
                 (dict_get [] (cleaned_remove_channels cleaned_input))
                 (listings (db w1))).
Proof.
  rewrite save_run. intros Hrun.
  destruct (add_channels _ _ w) as [w1 [[]|e1]]; [|done].
  exists w1. split; [done|].
  destruct (remove_channels_cases sm
    (dict_get [] (cleaned_remove_channels cleaned_input)) w1)
    as [[_ Hrem]|[_ Hrem]]; rewrite Hrem in Hrun; [done|].
  by injection Hrun as <-.
Qed.

(** The removal list counts as a set: two lists with the same channels,
    in any order and with any repetition, make the remove step end in the
    same way. *)
Theorem remove_channels_same_elements sm to_remove to_remove' (w : World) :
  (∀ ch, ch ∈ to_remove ↔ ch ∈ to_remove') →
  remove_channels sm to_remove w = remove_channels sm to_remove' w.
Proof.
  intros Hsame.
  destruct (remove_channels_cases sm to_remove w) as [[Hrej ->]|[Hacc ->]];
    destruct (remove_channels_cases sm to_remove' w) as [[Hrej' ->]|[Hacc' ->]];
    try done.
  do 3 f_equal. unfold delete_rows. apply list_filter_iff.
  intros r. by rewrite Hsame.
Qed.

Lemma remove_channels_same_elements_witness :
  remove_channels standard [2; 7; 2] sample_world =
  remove_channels standard [7; 2] sample_world.
Proof.
  apply (remove_channels_same_elements standard [2; 7; 2] [7; 2] sample_world).
  intros ch. rewrite !elem_of_cons, !elem_of_nil. tauto.
Defined.

(** Removals in a row add up: a removal of one list and then of another,
    both returning, leave the database that the removal of the two lists
    at once leaves, and that removal returns too. *)
Theorem remove_channels_in_two_steps sm to_remove1 to_remove2 (w w1 w2 : World) :
  remove_channels sm to_remove1 w = (w1, Ok tt) →
  remove_channels sm to_remove2 w1 = (w2, Ok tt) →
  ∃ w3,
    remove_channels sm (to_remove1 ++ to_remove2) w = (w3, Ok tt) ∧
    db w3 = db w2.
Proof.
  intros Hfirst Hsecond.
  destruct (remove_channels_cases sm to_remove1 w) as [[_ Hrun]|[Hacc Hrun]];
    rewrite Hrun in Hfirst; [done|]. injection Hfirst as <-.
  match type of Hsecond with remove_channels _ _ ?w0 = _ =>
    destruct (remove_channels_cases sm to_remove2 w0) as [[_ Hrun2]|[_ Hrun2]]
  end; rewrite Hrun2 in Hsecond; [done|]. injection Hsecond as <-.
  destruct (remove_channels_cases sm (to_remove1 ++ to_remove2) w)
    as [[Hrej _]|[_ ->]]; [done|].
  eexists. split; [done|]. cbn [db listings set_listings].
  unfold set_listings. cbn [db listings shipping_methods channels].
  by rewrite delete_rows_app_chs.
Qed.

Lemma remove_channels_in_two_steps_witness :
  ∃ w3, remove_channels standard ([2] ++ [7]) sample_world = (w3, Ok tt) ∧
        db w3 = db (remove_channels standard [7]
                      (remove_channels standard [2] sample_world).1).1.
Proof.
  apply (remove_channels_in_two_steps standard [2] [7] sample_world
           (remove_channels standard [2] sample_world).1
           (remove_channels standard [7]
              (remove_channels standard [2] sample_world).1).1);
    reflexivity.
Defined.



(** The listings after a returning [save]: a channel of the removal list
    has no row, also when an entry adds it (the remove step runs last); a
    channel that a validated list of entries adds and the removal list
    does not name has exactly the row of its entry; and the rows of every
    other pair are the ones from before. *)
Theorem save_end_state sm cleaned_input (w w' : World) :
  save sm cleaned_input w = (w', Ok tt) →
  let to_add := dict_get [] (cleaned_add_channels cleaned_input) in
  let to_remove := dict_get [] (cleaned_remove_channels cleaned_input) in
  (∀ ch, ch ∈ to_remove →
         rows_of (models.sm_pk sm) ch (listings (db w')) = []) ∧
  (NoDup (add_pks to_add) →
   ∀ e c, e ∈ to_add → channel e = Some c → models.ch_pk c ∉ to_remove →
          rows_of (models.sm_pk sm) (models.ch_pk c) (listings (db w')) =
            [listing (models.sm_pk sm) (models.ch_pk c)
               (stored_value (price e)) (stored_value (min_value e))
               (stored_value (max_value e))]) ∧
  (∀ sm' ch,
     sm' ≠ models.sm_pk sm ∨ ((ch ∉ add_pks to_add) ∧ (ch ∉ to_remove)) →
     rows_of sm' ch (listings (db w')) = rows_of sm' ch (listings (db w))).
Proof.
  intros Hrun to_add to_remove.
  apply save_ok_inv in Hrun as (w1 & Hadd & ->).
  fold to_add in Hadd. fold to_remove. cbn [listings set_listings].
  split_and!.
  - intros ch Hch. by apply delete_rows_rows_of.
  - intros Hnd e c Hin Hc Hkept.
    rewrite delete_rows_rows_of_kept by (by right).
    rewrite (add_channels_rows_of_added sm to_add w w1 e c) by done.
    unfold listing_of. by rewrite !dict_get_stored_value.
  - intros sm' ch Hother.
    rewrite delete_rows_rows_of_kept by tauto.
    apply (add_channels_rows_of_other sm to_add w w1 (Ok tt)); [done|tauto].
Qed.

Lemma save_end_state_witness :
  rows_of 1 2 (listings (db (save standard sample_cleaned_input sample_world).1))
    = [].
Proof.
  refine (proj1 (save_end_state standard sample_cleaned_input sample_world _ _)
            2 _).
  - reflexivity.
  - left.
Defined.

(** [save] is idempotent on a validated input (no channel twice among the
    entries, none both added and removed): a second returning [save] with
    the same input leaves the database as the first one left it. *)
Theorem save_twice sm cleaned_input (w w1 w2 : World) :
  NoDup (add_pks (dict_get [] (cleaned_add_channels cleaned_input))) →
  (∀ ch, ch ∈ add_pks (dict_get [] (cleaned_add_channels cleaned_input)) →
         ch ∉ dict_get [] (cleaned_remove_channels cleaned_input)) →
  save sm cleaned_input w = (w1, Ok tt) →
  save sm cleaned_input w1 = (w2, Ok tt) →
  db w2 = db w1.
Proof.
  intros Hnd Hdisj Hfirst Hsecond.
  apply save_ok_inv in Hfirst as (wa & Hadd1 & Hdb1).
  apply save_ok_inv in Hsecond as (wb & Hadd2 & ->).
  assert (Hfixed : db wb = db w1).
  { eapply add_channels_fixed; [|exact Hadd2].
    intros e c Hin Hc. rewrite Hdb1. cbn [listings set_listings].
    rewrite delete_rows_rows_of_other.
    - by eapply add_channels_rows_of_added.
    - apply Hdisj. unfold add_pks. apply list_elem_of_omap.
      exists e. by rewrite Hc. }
  rewrite Hfixed, Hdb1. cbn [listings set_listings].
  unfold set_listings. cbn [shipping_methods channels listings].
  by rewrite delete_rows_app_chs, <- delete_rows_app_chs,
    (delete_rows_none _ _ (delete_rows _ _ _))
    by (intros ch Hch; by apply delete_rows_rows_of).
Qed.

Lemma save_twice_witness :
  db (save standard sample_cleaned_input
        (save standard sample_cleaned_input sample_world).1).1 =
  db (save standard sample_cleaned_input sample_world).1.
Proof.
  apply (save_twice standard sample_cleaned_input sample_world _ _).
  - apply NoDup_singleton.
  - intros ch Hadd Hrem.
    apply list_elem_of_singleton in Hadd. apply list_elem_of_singleton in Hrem.
    rewrite Hadd in Hrem. discriminate.
  - reflexivity.
  - reflexivity.
Defined.

Lemma upsert_app_fresh sm ch p mn mx base extra :
  rows_of sm ch base = [] →
  upsert sm ch p mn mx (base ++ extra) = base ++ upsert sm ch p mn mx extra.
Proof.
  intros Hfresh. unfold upsert. rewrite rows_of_app, Hfresh, app_nil_l.
  destruct (rows_of sm ch extra) as [|r found].
  - by rewrite app_assoc.
  - rewrite fmap_app. f_equal.
    rewrite <- (list_fmap_id base) at 2. apply list_fmap_ext.
    intros i x Hx. case_decide as Hk; [|done].
    apply rows_of_nil_key in Hfresh. destruct Hfresh.
    rewrite <- Hk. apply list_elem_of_fmap_2. by eapply list_elem_of_lookup_2.
Qed.

Lemma upsert_Forall sm ch p mn mx (P : models.ShippingMethodChannelListing → Prop)
    rows :
  P (listing sm ch p mn mx) → Forall P rows →
  Forall P (upsert sm ch p mn mx rows).
Proof.
  intros Hnew Hrows. unfold upsert. destruct (rows_of sm ch rows).
  - apply Forall_app. split; [done|]. by apply Forall_singleton.
  - apply Forall_fmap. eapply Forall_impl; [exact Hrows|].
    intros x Hx. simpl. by case_decide.
Qed.

(** The rows an add step writes for channels without a row come after
    the rows of the table it starts from, which it leaves alone. *)
Lemma add_channels_appends sm to_add (w w' : World) res :
  (∀ ch, ch ∈ add_pks to_add →
         rows_of (models.sm_pk sm) ch (listings (db w)) = []) →
  add_channels sm to_add w = (w', res) →
  ∃ extra,
    listings (db w') = listings (db w) ++ extra ∧
    Forall (λ r, models.shipping_method_id r = models.sm_pk sm ∧
                 models.channel_id r ∈ add_pks to_add) extra.
Proof.
  intros Hfresh Hrun.
  apply (add_channels_preserves
    (λ d, ∃ extra,
       listings d = listings (db w) ++ extra ∧
       Forall (λ r, models.shipping_method_id r = models.sm_pk sm ∧
                    models.channel_id r ∈ add_pks to_add) extra)
    sm to_add) with (w := w) (res := res); [|done|].
  - intros d ch p mn mx Hch (extra & -> & Hextra).
    cbn [listings set_listings].
    exists (upsert (models.sm_pk sm) ch p mn mx extra).
    split; [by apply upsert_app_fresh, Hfresh|].
    by apply upsert_Forall.
  - exists []. by rewrite app_nil_r.
Qed.

(** Adding and removing in one [save]: when every channel that is added
    is also removed and no channel of the removal list had a row, a
    returning [save] leaves the database exactly as it was. *)
Theorem save_add_then_remove_restores sm cleaned_input (w w' : World) :
  save sm cleaned_input w = (w', Ok tt) →
  (∀ ch, ch ∈ add_pks (dict_get [] (cleaned_add_channels cleaned_input)) →
         ch ∈ dict_get [] (cleaned_remove_channels cleaned_input)) →
  (∀ ch, ch ∈ dict_get [] (cleaned_remove_channels cleaned_input) →
         rows_of (models.sm_pk sm) ch (listings (db w)) = []) →
  db w' = db w.
Proof.
  intros Hrun Hsub Hfresh.
  destruct (save_frame sm cleaned_input w w' (Ok tt) Hrun) as (Hsms & Hchs & _).
  apply save_ok_inv in Hrun as (w1 & Hadd & Hdb).
  destruct (add_channels_appends _ _ _ _ _
    (λ ch Hch, Hfresh ch (Hsub ch Hch)) Hadd) as (extra & Hrows & Hextra).
  assert (Hlist : listings (db w') = listings (db w)).
  { rewrite Hdb. cbn [listings set_listings]. rewrite Hrows.
    unfold delete_rows. rewrite filter_app.
    fold (delete_rows (models.sm_pk sm)
            (dict_get [] (cleaned_remove_channels cleaned_input))
            (listings (db w))).
    rewrite delete_rows_none by done.
    rewrite (filter_none _ extra); [by rewrite app_nil_r|].
    eapply Forall_impl; [exact Hextra|].
    intros r [Hsm Hch] Hkeep. apply Hkeep. split; [done|]. by apply Hsub. }
  destruct (db w'), (db w). simpl in *. by subst.
Qed.

Lemma save_add_then_remove_restores_witness :
  db (save standard
        {| cleaned_add_channels := Some [add_usd (Some channel_usd)];
           cleaned_remove_channels := Some [1; 7] |} sample_world).1 =
  db sample_world.
Proof.
  apply (save_add_then_remove_restores standard
    {| cleaned_add_channels := Some [add_usd (Some channel_usd)];
       cleaned_remove_channels := Some [1; 7] |} sample_world _).
  - reflexivity.
  - intros ch Hch. apply list_elem_of_singleton in Hch. subst ch. left.
  - intros ch Hch.
    apply elem_of_cons in Hch as [->|Hch]; [reflexivity|].
    apply list_elem_of_singleton in Hch. subst ch. reflexivity.
Defined.
